(** * TSP hill climbing (TSP2.0.py): the search engine, verified

    The program explores a closed tour over 2-D cities by repeated random
    segment reversals (2-opt), accepts strict improvements only, counts
    consecutive failures, and classifies the run as improving, searching, or
    stuck at a local / global-so-far optimum.

    Distances are numpy float64 values; they are modelled by Rocq's primitive
    binary64 floats, whose operations are the IEEE 754 ones numpy uses.
    The global random generator of numpy is modelled as an injected source
    of draws: each call of [update] receives the ten index pairs that
    [np.random.choice] returns during that call, and each (re)start receives
    the tour that [np.random.permutation] returns.  Of the Matplotlib
    rendering, the values that [update] computes from the state (the closed
    route line, the badge and line colours, the axis limits) are modelled;
    the drawing calls, which never write the state, are left out. *)

From Stdlib Require Import List Arith Lia Bool ZArith Permutation.
From Stdlib Require Import Floats.
From Stdlib Require String DecimalString.
Import ListNotations.
Import String.StringSyntax.

Local Open Scope float_scope.
#[local] Delimit Scope string_scope with string.
#[local] Set Warnings "-inexact-float".

(** ** Tours and the move generator *)

(** [two_opt_swap(route)]: copy the route, draw two distinct positions with
    [np.random.choice(len(r), 2, replace=False)], sort them into [i < j],
    and reverse the closed slice [r[i:j+1]] in place.  The pair [draw] is
    the result of the random choice; Python's slice bounds are clamped to
    the length of the list, as [firstn] and [skipn] are.  (On a route of
    fewer than two cities the choice raises and returns no pair; the
    program has [N = 50].) *)
Definition two_opt_swap (route : list nat) (draw : nat * nat) : list nat :=
  let i := Nat.min (fst draw) (snd draw) in
  let j := Nat.max (fst draw) (snd draw) in
  firstn i route
    ++ rev (firstn (j + 1 - i)%nat (skipn i route))
    ++ skipn (j + 1)%nat route.

(** ** The status badge *)

Inductive status : Type :=
  | Improving
  | Searching
  | LocalOptimum
  | GlobalOptimum.

Definition STUCK_THRESHOLD : nat := 50.

(** The absolute tolerance of the registry test, the literal [1e-6]: as in
    Python, the binary64 value nearest to it. *)
Definition tolerance : float := 1e-6.

(** [abs(current_dist - d) < 1e-6], in float64 arithmetic. *)
Definition within_tolerance (x d : float) : bool :=
  abs (x - d) <? tolerance.

(** Python's [min] over a non-empty list: the first element, replaced by
    each later element that compares strictly smaller. *)
Definition py_min (d : float) (ds : list float) : float :=
  fold_left (fun m x => if x <? m then x else m) ds d.

(** ** Run state: the module-level globals *)

Record state : Type := mkState {
  current : list nat;
  current_dist : float;
  best_dist : float;
  distance_history : list float;
  iteration : nat;
  stuck_counter : nat;
  is_global : bool;
  local_optima_distances : list float
}.

(** [get_status()]: the first component of the returned tuple (the other
    three are the label and the colours of the badge). *)
Definition get_status (s : state) : status :=
  if (stuck_counter s =? 0)%nat then Improving
  else if (stuck_counter s <? STUCK_THRESHOLD)%nat then Searching
  else if is_global s then GlobalOptimum
  else LocalOptimum.

Section Engine.

(** The city table [cities = np.random.rand(N, 2)]: one row of two
    coordinates per city. *)
Variable cities : list (float * float).

Definition N : nat := length cities.

Definition city (k : nat) : float * float := nth k cities (0, 0).

(** [np.linalg.norm(a - b)] for two rows of the table: the square root of
    the dot product of the difference with itself. *)
Definition norm_diff (a b : float * float) : float :=
  let dx := fst a - fst b in
  let dy := snd a - snd b in
  sqrt (dx * dx + dy * dy).

(** [total_distance(route)]: the edges of the closed cycle, summed in
    order starting from zero.  Rows are looked up with [nth]: on the tours
    a run can reach every entry is a valid row index, so the default row
    is never used there (numpy would raise on an index past the table). *)
Definition total_distance (route : list nat) : float :=
  fold_left
    (fun d i =>
       d + norm_diff (city (nth i route 0%nat))
                     (city (nth ((i + 1) mod length route)%nat route 0%nat)))
    (seq 0 (length route)) 0.

(** One pass of the body of [for _ in range(10)]; the boolean is the local
    flag [improved]. *)
Definition attempt (draw : nat * nat) (si : state * bool) : state * bool :=
  let (s, improved) := si in
  let neighbor := two_opt_swap (current s) draw in
  let nd := total_distance neighbor in
  if nd <? current_dist s then
    let s1 := mkState neighbor nd (best_dist s) (distance_history s)
                (iteration s) 0 (is_global s) (local_optima_distances s) in
    let s2 := if current_dist s1 <? best_dist s1
              then mkState (current s1) (current_dist s1) (current_dist s1)
                     (distance_history s1) (iteration s1) (stuck_counter s1)
                     false (local_optima_distances s1)
              else s1 in
    (s2, true)
  else
    (mkState (current s) (current_dist s) (best_dist s) (distance_history s)
       (iteration s) (stuck_counter s + 1)%nat (is_global s)
       (local_optima_distances s),
     improved).

(** The first [k] passes of the loop; [rnd i] is the draw of pass [i]. *)
Definition batch (rnd : nat -> nat * nat) (k : nat) (si : state * bool)
  : state * bool :=
  fold_left (fun acc i => attempt (rnd i) acc) (seq 0 k) si.

(** The bookkeeping after the loop: count the frame and log the distance. *)
Definition record_frame (s : state) : state :=
  mkState (current s) (current_dist s) (best_dist s)
    (distance_history s ++ [current_dist s])
    (iteration s + 1)%nat (stuck_counter s) (is_global s)
    (local_optima_distances s).

(** [not local_optima_distances or
     current_dist < min(local_optima_distances)] *)
Definition best_so_far (x : float) (registry : list float) : bool :=
  match registry with
  | [] => true
  | d :: ds => x <? py_min d ds
  end.

(** [not local_optima_distances or
     not any(abs(current_dist - d) < 1e-6 for d in local_optima_distances)] *)
Definition is_new_optimum (x : float) (registry : list float) : bool :=
  match registry with
  | [] => true
  | _ => negb (existsb (within_tolerance x) registry)
  end.

(** The block under [if stuck_counter[0] >= STUCK_THRESHOLD]. *)
Definition classify (s : state) : state :=
  if (STUCK_THRESHOLD <=? stuck_counter s)%nat then
    let g := best_so_far (current_dist s) (local_optima_distances s) in
    mkState (current s) (current_dist s) (best_dist s) (distance_history s)
      (iteration s) (stuck_counter s) g
      (if is_new_optimum (current_dist s) (local_optima_distances s)
       then local_optima_distances s ++ [current_dist s]
       else local_optima_distances s)
  else s.

(** [update(frame)], without the drawing code. *)
Definition update (rnd : nat -> nat * nat) (s : state) : state :=
  classify (record_frame (fst (batch rnd 10 (s, false)))).

(** The module-level initialisation, for the tour [p] returned by
    [np.random.permutation(N)]. *)
Definition initial (p : list nat) : state :=
  mkState p (total_distance p) (total_distance p) [total_distance p]
    0 0 false [].

(** [restart(event)], for the tour [p] returned by
    [np.random.permutation(N)]: the five assignments of the handler (its
    last line only wakes the animation timer). *)
Definition restart (p : list nat) (s : state) : state :=
  mkState p (total_distance p) (best_dist s) [total_distance p]
    0 0 (is_global s) (local_optima_distances s).

(** The states a run can be in: the initial one, and those obtained by
    frames and restarts. *)
Inductive reachable : state -> Prop :=
  | reach_initial p :
      Permutation p (seq 0 N) -> reachable (initial p)
  | reach_update rnd s :
      reachable s -> reachable (update rnd s)
  | reach_restart p s :
      Permutation p (seq 0 N) -> reachable s -> reachable (restart p s).

(** [n] frames in a row; [rnds f] is the random source of frame [f]. *)
Fixpoint run (rnds : nat -> nat -> nat * nat) (n : nat) (s : state) : state :=
  match n with
  | O => s
  | S n' => update (rnds n') (run rnds n' s)
  end.

(** Whether pass [k] of the frame started in [s] accepts its candidate:
    the test [nd < current_dist] of that pass. *)
Definition accepted (rnd : nat -> nat * nat) (s : state) (k : nat) : bool :=
  let sk := fst (batch rnd k (s, false)) in
  total_distance (two_opt_swap (current sk) (rnd k)) <? current_dist sk.

(** The loop either has not accepted anything yet, and then the tour and its
    length are those the frame started with, or it has, and then the length
    is strictly below the one the frame started with. *)
Definition descent_inv (s0 : state) (si : state * bool) : Prop :=
  (snd si = false /\ current (fst si) = current s0 /\
   current_dist (fst si) = current_dist s0) \/
  (snd si = true /\ (current_dist (fst si) <? current_dist s0) = true).

End Engine.

(** ** Predicates of the statements *)

(** The IEEE comparison of two binary64 values: [None] when one is a NaN. *)
Definition float_cmp (x y : float) : option comparison :=
  SFcompare (Prim2SF x) (Prim2SF y).

(** Equal, or strictly below: the order in which distances only go down. *)
Definition float_le (x y : float) : Prop := x = y \/ (x <? y) = true.

(** No two entries at different positions are within the tolerance of each
    other. *)
Definition separated (registry : list float) : Prop :=
  forall i j x d, i <> j ->
    nth_error registry i = Some x -> nth_error registry j = Some d ->
    within_tolerance x d = false.

(** ** The unit square *)

(** Four cities on the corners of the unit square, in the order of the
    perimeter; the tour [0,1,2,3] has length 4. *)
Definition unit_square : list (float * float) :=
  [(0, 0); (0, 1); (1, 1); (1, 0)].

(** The state of the scenario after [n] frames at the optimum. *)
Definition at_optimum (n : nat) (s : state) : Prop :=
  current s = [0; 1; 2; 3]%nat /\
  current_dist s = 4 /\
  stuck_counter s = (10 * n)%nat /\
  is_global s = (n =? 5)%nat /\
  local_optima_distances s = if (5 <=? n)%nat then [4] else [].

(** A run on the unit square that gets stuck twice: five frames that only
    reverse the whole crossing tour [0,2,1,3], then frames that reverse
    the middle segment, which uncrosses it at once. *)
Definition two_optima_draws (frame pass : nat) : nat * nat :=
  if (frame <? 5)%nat then (0, 3)%nat else (1, 2)%nat.

Definition two_optima_state : state :=
  run unit_square two_optima_draws 10 (initial unit_square [0; 2; 1; 3]%nat).

(** ** What a frame draws

    The part of [update] after the search step reads the state and hands
    values to the plotting library; the values are modelled, the calls
    that draw them are not. *)

(** Python's [max] over a non-empty list: the first element, replaced by
    each later element that compares strictly greater. *)
Definition py_max (d : float) (ds : list float) : float :=
  fold_left (fun m x => if m <? x then x else m) ds d.

(** An [int] as an f-string prints it: in decimal. *)
Definition decimal (n : nat) : String.string :=
  DecimalString.NilEmpty.string_of_uint (Nat.to_uint n).

(** [get_status()], the whole returned tuple: key, label, background and
    foreground colour of the badge.  Labels are the UTF-8 bytes of the
    source text. *)
Definition status_badge (s : state)
  : String.string * String.string * String.string * String.string :=
  if (stuck_counter s =? 0)%nat then
    ("improving", "🔼 Improving", "#d4edda", "#155724")%string
  else if (stuck_counter s <? STUCK_THRESHOLD)%nat then
    ("searching"%string,
     String.append "↔ Searching ("
       (String.append (decimal (stuck_counter s)) ")"),
     "#fff3cd"%string, "#856404"%string)
  else if is_global s then
    ("global", "★ Global Optimum", "#cce5ff", "#004085")%string
  else
    ("local", "⚠ Local Optimum", "#f8d7da", "#721c24")%string.

(** The key [get_status()] returns for each status. *)
Definition status_key (st : status) : String.string :=
  match st with
  | Improving => "improving"
  | Searching => "searching"
  | LocalOptimum => "local"
  | GlobalOptimum => "global"
  end%string.

(** The dict [colors] of [update]. *)
Definition colors : list (String.string * String.string) :=
  [("improving", "royalblue"); ("searching", "darkorange");
   ("local", "crimson"); ("global", "mediumseagreen")]%string.

(** [d[k]] on a dict written as its list of items: [None] is [KeyError]. *)
Fixpoint dict_get (k : String.string)
    (d : list (String.string * String.string)) : option String.string :=
  match d with
  | [] => None
  | (k', v) :: rest => if String.eqb k k' then Some v else dict_get k rest
  end.

(** [colors[status]], the colour given to the route line. *)
Definition line_color (s : state) : option String.string :=
  dict_get (fst (fst (fst (status_badge s)))) colors.

(** [route = current + [current[0]]]: the tour closed back on its first
    city; [None] is the [IndexError] of an empty tour. *)
Definition closed_route (s : state) : option (list nat) :=
  match current s with
  | [] => None
  | c :: _ => Some (current s ++ [c])
  end.

(** [cities[route]]: the rows of the table at the entries of the route;
    [None] is the [IndexError] of an entry past the table. *)
Fixpoint take_rows (cities : list (float * float)) (route : list nat)
  : option (list (float * float)) :=
  match route with
  | [] => Some []
  | c :: rest =>
      match nth_error cities c, take_rows cities rest with
      | Some p, Some ps => Some (p :: ps)
      | _, _ => None
      end
  end.

(** The data of the route line: [x = cities[route, 0]] and
    [y = cities[route, 1]]. *)
Definition route_line (cities : list (float * float)) (s : state)
  : option (list float * list float) :=
  match closed_route s with
  | None => None
  | Some r =>
      match take_rows cities r with
      | None => None
      | Some ps => Some (map fst ps, map snd ps)
      end
  end.

(** The right end of the x axis of the distance plot:
    [max(300, len(distance_history))]. *)
Definition dist_xlim (s : state) : nat :=
  Nat.max 300 (length (distance_history s)).

(** The y axis of the distance plot: [min(distance_history) * 0.95] and
    [max(distance_history) * 1.05]; [None] is the [ValueError] of an empty
    history. *)
Definition dist_ylim (s : state) : option (float * float) :=
  match distance_history s with
  | [] => None
  | d :: ds => Some (py_min d ds * 0.95, py_max d ds * 1.05)
  end.

(** Each entry is equal to or strictly below the one before it. *)
Definition non_increasing (h : list float) : Prop :=
  forall k a b,
    nth_error h k = Some a -> nth_error h (S k) = Some b -> float_le b a.

(** ** Order facts on binary64 comparisons

    Everything below is derived from the specification of the primitive
    comparison in terms of [SFcompare]. *)

Module FloatOrder.

Lemma ltb_cmp x y : (x <? y) = true <-> float_cmp x y = Some Lt.
Proof.
  unfold float_cmp. rewrite ltb_spec. unfold SFltb.
  destruct (SFcompare _ _) as [[]|]; split; congruence.
Qed.

Lemma leb_cmp x y :
  (x <=? y) = true <-> (float_cmp x y = Some Lt \/ float_cmp x y = Some Eq).
Proof.
  unfold float_cmp. rewrite leb_spec. unfold SFleb.
  destruct (SFcompare _ _) as [[]|]; split;
    intuition congruence.
Qed.

Lemma eqb_cmp x y : (x =? y) = true <-> float_cmp x y = Some Eq.
Proof.
  unfold float_cmp. rewrite eqb_spec. unfold SFeqb.
  destruct (SFcompare _ _) as [[]|]; split; congruence.
Qed.

Lemma SFcompare_lt_irrefl a : SFcompare a a <> Some Lt.
Proof.
  destruct a as [s| [] | | [] m e]; simpl; try congruence.
  - rewrite Z.compare_refl, Pos.compare_cont_refl. simpl. congruence.
  - rewrite Z.compare_refl, Pos.compare_cont_refl. simpl. congruence.
Qed.

Lemma SFcompare_lt_trans a b c :
  SFcompare a b = Some Lt -> SFcompare b c = Some Lt ->
  SFcompare a c = Some Lt.
Proof.
  destruct a as [sa| sa | | sa ma ea];
  destruct b as [sb| sb | | sb mb eb];
  destruct c as [sc| sc | | sc mc ec]; simpl;
  try destruct sa; try destruct sb; try destruct sc; simpl;
  try congruence; intros Hab Hbc; f_equal.
  - destruct (Z.compare_spec ea eb), (Z.compare_spec eb ec),
      (Z.compare_spec ea ec); try congruence; try lia; subst.
    all: fold (Pos.compare ma mb) in *; fold (Pos.compare mb mc) in *;
         fold (Pos.compare ma mc) in *.
    all: destruct (Pos.compare_spec ma mb), (Pos.compare_spec mb mc),
           (Pos.compare_spec ma mc); simpl in *; try congruence; try lia.
  - destruct (Z.compare_spec ea eb), (Z.compare_spec eb ec),
      (Z.compare_spec ea ec); try congruence; try lia; subst.
    all: fold (Pos.compare ma mb) in *; fold (Pos.compare mb mc) in *;
         fold (Pos.compare ma mc) in *.
    all: destruct (Pos.compare_spec ma mb), (Pos.compare_spec mb mc),
           (Pos.compare_spec ma mc); simpl in *; try congruence; try lia.
Qed.

Lemma SFcompare_antisym a b :
  SFcompare b a = option_map CompOpp (SFcompare a b).
Proof.
  destruct a as [sa| sa | | sa ma ea];
  destruct b as [sb| sb | | sb mb eb]; simpl;
  try destruct sa; try destruct sb; simpl; try reflexivity; f_equal.
  - rewrite (Z.compare_antisym ea eb).
    destruct (ea ?= eb)%Z; simpl; try reflexivity.
    fold (Pos.compare ma mb). fold (Pos.compare mb ma).
    rewrite (Pos.compare_antisym ma mb).
    destruct (ma ?= mb)%positive; reflexivity.
  - rewrite (Z.compare_antisym ea eb).
    destruct (ea ?= eb)%Z; simpl; try reflexivity.
    fold (Pos.compare ma mb). fold (Pos.compare mb ma).
    apply Pos.compare_antisym.
Qed.

Lemma ltb_irrefl x : (x <? x) = false.
Proof.
  destruct (x <? x) eqn:E; [|reflexivity].
  apply ltb_cmp in E. now apply SFcompare_lt_irrefl in E.
Qed.

Lemma ltb_trans x y z :
  (x <? y) = true -> (y <? z) = true -> (x <? z) = true.
Proof.
  rewrite !ltb_cmp. apply SFcompare_lt_trans.
Qed.

Lemma eqb_not_ltb x y : (x =? y) = true -> (x <? y) = false.
Proof.
  intros E%eqb_cmp. destruct (x <? y) eqn:L; [|reflexivity].
  apply ltb_cmp in L. congruence.
Qed.

Lemma leb_not_ltb x y : (x <=? y) = true -> (y <? x) = false.
Proof.
  intros E%leb_cmp. destruct (y <? x) eqn:L; [|reflexivity].
  apply ltb_cmp in L. unfold float_cmp in *.
  rewrite (SFcompare_antisym (Prim2SF y) (Prim2SF x)), L in E.
  simpl in E. destruct E; congruence.
Qed.

Lemma is_nan_false x : is_nan x = false -> Prim2SF x <> S754_nan.
Proof.
  unfold is_nan. rewrite eqb_spec. intros H E. rewrite E in H. discriminate.
Qed.

Lemma SFcompare_none a b :
  SFcompare a b = None -> a = S754_nan \/ b = S754_nan.
Proof.
  destruct a as [sa | sa | | sa ma ea], b as [sb | sb | | sb mb eb];
    cbn; try discriminate; auto.
Qed.

(** Two numbers are comparable: what is not below is above or equal. *)
Lemma not_ltb_leb x y :
  is_nan x = false -> is_nan y = false ->
  (x <? y) = false -> (y <=? x) = true.
Proof.
  intros Hx%is_nan_false Hy%is_nan_false L.
  apply leb_cmp. unfold float_cmp.
  rewrite (SFcompare_antisym (Prim2SF x) (Prim2SF y)).
  destruct (SFcompare (Prim2SF x) (Prim2SF y)) as [[]|] eqn:E; cbn.
  - right. reflexivity.
  - assert (T : (x <? y) = true) by (apply ltb_cmp; exact E). congruence.
  - left. reflexivity.
  - apply SFcompare_none in E. tauto.
Qed.

(** The sign given to the rounding of a magnitude does not matter once the
    absolute value is taken. *)
Lemma SFabs_round_aux_sign s s' m e l :
  SFabs (binary_round_aux prec emax s m e l) =
  SFabs (binary_round_aux prec emax s' m e l).
Proof.
  unfold binary_round_aux.
  destruct (shr_fexp prec emax m e l) as [mrs e1].
  destruct (shr_fexp prec emax _ e1 loc_Exact) as [mrs' e2].
  destruct (shr_m mrs'); try reflexivity.
  destruct (Z.leb e2 _); reflexivity.
Qed.

Lemma SFabs_normalize_opp m e :
  SFabs (binary_normalize prec emax (- m)%Z e false) =
  SFabs (binary_normalize prec emax m e false).
Proof.
  destruct m as [|p|p]; cbn [Z.opp binary_normalize]; try reflexivity;
    unfold binary_round;
    destruct (shl_align _ _ _) as [mz ez]; apply SFabs_round_aux_sign.
Qed.

Lemma SFabs_sub_sym a b :
  SFabs (SF64sub a b) = SFabs (SF64sub b a).
Proof.
  unfold SF64sub.
  destruct a as [sa | sa | | sa ma ea], b as [sb | sb | | sb mb eb];
    cbn [SFsub]; try reflexivity;
    try (destruct sa, sb; reflexivity).
  rewrite (Z.min_comm eb ea).
  set (A := cond_Zopp sa _). set (B := cond_Zopp sb _).
  replace (B - A)%Z with (- (A - B))%Z by lia.
  symmetry. apply SFabs_normalize_opp.
Qed.

(** [|x - y|] and [|y - x|] are the same binary64 value. *)
Lemma abs_sub_sym x y : Prim2SF (abs (x - y)) = Prim2SF (abs (y - x)).
Proof.
  rewrite !abs_spec, !sub_spec. apply SFabs_sub_sym.
Qed.

Lemma abs_sub_ltb_sym x y c : (abs (x - y) <? c) = (abs (y - x) <? c).
Proof.
  rewrite !ltb_spec, (abs_sub_sym x y). reflexivity.
Qed.

End FloatOrder.

Section EngineFacts.

Variable cities : list (float * float).

(** ** Basic facts about the loop *)

Lemma batch_0 rnd si : batch cities rnd 0 si = si.
Proof. reflexivity. Qed.

Lemma batch_S rnd k si :
  batch cities rnd (S k) si = attempt cities (rnd k) (batch cities rnd k si).
Proof.
  unfold batch.
  rewrite seq_S, fold_left_app. reflexivity.
Qed.

(** A property kept by every pass is kept by the whole loop. *)
Lemma batch_preserves (P : state * bool -> Prop) rnd :
  (forall d si, P si -> P (attempt cities d si)) ->
  forall k si, P si -> P (batch cities rnd k si).
Proof.
  intros step k. induction k as [|k IH]; intros si H.
  - exact H.
  - rewrite batch_S. apply step, IH, H.
Qed.

Ltac attempt_cases d si :=
  let s := fresh "s" in
  let imp := fresh "imp" in
  let E := fresh "Eacc" in
  let E' := fresh "Ebest" in
  destruct si as [s imp];
  cbn [fst snd]; unfold attempt;
  destruct (total_distance cities (two_opt_swap (current s) d)
              <? current_dist s) eqn:E;
  [ cbn [current current_dist best_dist fst snd];
    destruct (total_distance cities (two_opt_swap (current s) d)
                <? best_dist s) eqn:E'
  | ];
  cbn [current current_dist best_dist distance_history iteration
       stuck_counter is_global local_optima_distances fst snd].

Lemma attempt_registry d si :
  local_optima_distances (fst (attempt cities d si)) =
  local_optima_distances (fst si).
Proof. attempt_cases d si; reflexivity. Qed.

Lemma attempt_history d si :
  distance_history (fst (attempt cities d si)) = distance_history (fst si) /\
  iteration (fst (attempt cities d si)) = iteration (fst si).
Proof. attempt_cases d si; split; reflexivity. Qed.

Lemma attempt_improved d si :
  snd (attempt cities d si) =
  (total_distance cities (two_opt_swap (current (fst si)) d)
     <? current_dist (fst si)) || snd si.
Proof. attempt_cases d si; reflexivity. Qed.

Lemma attempt_stuck d si :
  stuck_counter (fst (attempt cities d si)) =
  if total_distance cities (two_opt_swap (current (fst si)) d)
       <? current_dist (fst si)
  then 0%nat else (stuck_counter (fst si) + 1)%nat.
Proof. attempt_cases d si; reflexivity. Qed.

Lemma attempt_rejected d s imp :
  (total_distance cities (two_opt_swap (current s) d) <? current_dist s)
    = false ->
  attempt cities d (s, imp) =
  (mkState (current s) (current_dist s) (best_dist s) (distance_history s)
     (iteration s) (stuck_counter s + 1)%nat (is_global s)
     (local_optima_distances s), imp).
Proof.
  intros E. unfold attempt. rewrite E. reflexivity.
Qed.

Lemma batch_registry rnd k si :
  local_optima_distances (fst (batch cities rnd k si)) =
  local_optima_distances (fst si).
Proof.
  induction k as [|k IH]; [reflexivity|].
  rewrite batch_S, attempt_registry. exact IH.
Qed.

Lemma batch_history rnd k si :
  distance_history (fst (batch cities rnd k si)) = distance_history (fst si) /\
  iteration (fst (batch cities rnd k si)) = iteration (fst si).
Proof.
  induction k as [|k IH]; [split; reflexivity|].
  rewrite batch_S.
  destruct (attempt_history (rnd k) (batch cities rnd k si)) as [-> ->].
  exact IH.
Qed.

(** What the frame leaves of the state the loop produced. *)
Lemma update_fields rnd s :
  let b := fst (batch cities rnd 10 (s, false)) in
  current (update cities rnd s) = current b /\
  current_dist (update cities rnd s) = current_dist b /\
  best_dist (update cities rnd s) = best_dist b /\
  stuck_counter (update cities rnd s) = stuck_counter b /\
  iteration (update cities rnd s) = (iteration s + 1)%nat /\
  distance_history (update cities rnd s) =
  distance_history s ++ [current_dist b].
Proof.
  intros b. unfold update, classify. fold b.
  destruct (batch_history rnd 10 (s, false)) as [Hh Hi].
  fold b in Hh, Hi. cbn [fst] in Hh, Hi.
  destruct (STUCK_THRESHOLD <=? stuck_counter (record_frame b))%nat;
    cbn; rewrite ?Hh, ?Hi; repeat split; reflexivity.
Qed.

(** ** The move generator keeps the cities of the tour *)

Lemma two_opt_swap_segments (route : list nat) (i k : nat) :
  firstn i route ++ firstn k (skipn i route) ++ skipn (k + i) route = route.
Proof.
  rewrite <- (skipn_skipn k i route).
  rewrite (firstn_skipn k (skipn i route)).
  apply firstn_skipn.
Qed.

Lemma two_opt_swap_perm (route : list nat) (draw : nat * nat) :
  Permutation (two_opt_swap route draw) route.
Proof.
  unfold two_opt_swap.
  set (i := Nat.min (fst draw) (snd draw)).
  set (j := Nat.max (fst draw) (snd draw)).
  assert (Hij : (i <= j)%nat) by (subst i j; lia).
  rewrite <- (two_opt_swap_segments route i (j + 1 - i)) at 4.
  replace (j + 1 - i + i)%nat with (j + 1)%nat by lia.
  apply Permutation_app_head, Permutation_app_tail.
  symmetry. apply Permutation_rev.
Qed.

Lemma attempt_current_perm d si :
  Permutation (current (fst (attempt cities d si))) (current (fst si)).
Proof.
  attempt_cases d si; try apply two_opt_swap_perm; reflexivity.
Qed.

Lemma update_current_perm rnd s :
  Permutation (current (update cities rnd s)) (current s).
Proof.
  destruct (update_fields rnd s) as [-> _].
  apply (batch_preserves
           (fun si => Permutation (current (fst si)) (current s))).
  - intros d si H. rewrite attempt_current_perm. exact H.
  - reflexivity.
Qed.

(** C4 (permutation invariant).  In every state a run can reach (the
    initial random tour, and the tour after any number of frames and
    restarts) the current tour is a permutation of [0..N-1]: it has no
    duplicate, and a city is on it exactly when its index is below [N].
    In particular [two_opt_swap] maps a permutation of [0..N-1] to a
    permutation of [0..N-1], whatever pair of positions is drawn. *)
Theorem tour_permutation_invariant :
  (forall s, reachable cities s ->
     Permutation (current s) (seq 0 (N cities)) /\
     NoDup (current s) /\
     (forall c, In c (current s) <-> (c < (N cities))%nat)) /\
  (forall route draw,
     Permutation route (seq 0 (N cities)) ->
     Permutation (two_opt_swap route draw) (seq 0 (N cities))).
Proof.
  assert (Hperm : forall s, reachable cities s ->
                  Permutation (current s) (seq 0 (N cities))).
  { intros s H. induction H as [p Hp | rnd s _ IH | p s Hp _ _].
    - exact Hp.
    - rewrite update_current_perm. exact IH.
    - exact Hp. }
  split.
  - intros s H. specialize (Hperm s H). split; [exact Hperm|]. split.
    + apply (Permutation_NoDup (l := seq 0 (N cities))).
      * symmetry. exact Hperm.
      * apply seq_NoDup.
    + intros c. split; intros Hc.
      * apply (Permutation_in c Hperm) in Hc. apply in_seq in Hc. lia.
      * apply (Permutation_in c (Permutation_sym Hperm)).
        apply in_seq. lia.
  - intros route draw H. rewrite two_opt_swap_perm. exact H.
Qed.

(** ** Strict descent *)

Lemma attempt_descent s0 d si :
  descent_inv s0 si -> descent_inv s0 (attempt cities d si).
Proof.
  unfold descent_inv. intros H.
  attempt_cases d si; cbn [fst snd] in H.
  1,2: right; split; [reflexivity|];
       destruct H as [(_ & _ & <-) | (_ & H)];
       [exact Eacc | exact (FloatOrder.ltb_trans _ _ _ Eacc H)].
  exact H.
Qed.

Lemma batch_descent rnd k s : descent_inv s (batch cities rnd k (s, false)).
Proof.
  apply (batch_preserves (descent_inv s)).
  - intros d si. apply attempt_descent.
  - left. repeat split; reflexivity.
Qed.

(** The flag [improved] is set exactly when some pass took the accepting
    branch, the one that executes [stuck_counter[0] = 0]. *)
Lemma improved_iff_accepted rnd s k :
  snd (batch cities rnd k (s, false)) = true <->
  exists i, (i < k)%nat /\ accepted cities rnd s i = true.
Proof.
  induction k as [|k IH].
  - cbn. split; [discriminate|]. intros (i & Hi & _). lia.
  - rewrite batch_S, attempt_improved, orb_true_iff, IH.
    fold (accepted cities rnd s k). split.
    + intros [H | (i & Hi & H)].
      * exists k. split; [lia | exact H].
      * exists i. split; [lia | exact H].
    + intros (i & Hi & H).
      destruct (Nat.eq_dec i k) as [-> | Hne].
      * left. exact H.
      * right. exists i. split; [lia | exact H].
Qed.

(** C5 (strict-descent acceptance).  Over one frame, [current_dist] either
    keeps its value or becomes strictly smaller, so it ends less than or
    equal to where it started (for a length that is a number, not a NaN);
    it becomes strictly smaller exactly when some pass of the frame reset
    [stuck_counter] to 0, i.e. accepted its candidate; and a candidate
    whose length equals [current_dist] is rejected: the tour and its
    length stay, and the stuck counter is incremented. *)
Theorem strict_descent_acceptance (rnd : nat -> nat * nat) (s : state) :
  (current_dist (update cities rnd s) = current_dist s \/
   (current_dist (update cities rnd s) <? current_dist s) = true) /\
  ((current_dist s =? current_dist s) = true ->
   (current_dist (update cities rnd s) <=? current_dist s) = true) /\
  ((current_dist (update cities rnd s) <? current_dist s) = true <->
   exists k, (k < 10)%nat /\ accepted cities rnd s k = true /\
             stuck_counter (fst (batch cities rnd (S k) (s, false))) = 0%nat) /\
  (forall draw s1 improved,
     (total_distance cities (two_opt_swap (current s1) draw) =? current_dist s1)
       = true ->
     let s2 := fst (attempt cities draw (s1, improved)) in
     current s2 = current s1 /\
     current_dist s2 = current_dist s1 /\
     stuck_counter s2 = (stuck_counter s1 + 1)%nat /\
     snd (attempt cities draw (s1, improved)) = improved).
Proof.
  destruct (update_fields rnd s) as (_ & Hd & _). rewrite Hd. clear Hd.
  pose proof (batch_descent rnd 10 s) as Hinv.
  pose proof (improved_iff_accepted rnd s 10) as Himp.
  unfold descent_inv in Hinv.
  split; [|split; [|split]].
  - destruct Hinv as [(_ & _ & H) | (_ & H)]; [left | right]; exact H.
  - intros Hnum. apply FloatOrder.leb_cmp.
    destruct Hinv as [(_ & _ & ->) | (_ & H)].
    + right. apply FloatOrder.eqb_cmp. exact Hnum.
    + left. apply FloatOrder.ltb_cmp. exact H.
  - split.
    + intros Hlt.
      destruct Hinv as [(_ & _ & E) | (Hi & _)].
      * rewrite E, FloatOrder.ltb_irrefl in Hlt. discriminate.
      * apply Himp in Hi. destruct Hi as (k & Hk & Hacc).
        exists k. repeat split; try assumption.
        rewrite batch_S, attempt_stuck.
        unfold accepted in Hacc. cbv zeta in Hacc. rewrite Hacc. reflexivity.
    + intros (k & Hk & Hacc & _).
      assert (Hi : snd (batch cities rnd 10 (s, false)) = true).
      { apply Himp. exists k. split; assumption. }
      destruct Hinv as [(Hf & _) | (_ & H)]; [congruence | exact H].
  - intros draw s1 improved Heq. cbv zeta.
    apply FloatOrder.eqb_not_ltb in Heq.
    rewrite (attempt_rejected _ _ _ Heq). cbn. repeat split; reflexivity.
Qed.

(** ** Best distance *)

Lemma float_le_refl x : float_le x x.
Proof. left. reflexivity. Qed.

Lemma float_le_trans x y z : float_le x y -> float_le y z -> float_le x z.
Proof.
  intros [-> | H1] [-> | H2]; try (left; reflexivity).
  - right. exact H2.
  - right. exact H1.
  - right. exact (FloatOrder.ltb_trans _ _ _ H1 H2).
Qed.

Lemma float_le_leb x y :
  (y =? y) = true -> float_le x y -> (x <=? y) = true.
Proof.
  intros Hnum [-> | H]; apply FloatOrder.leb_cmp.
  - right. apply FloatOrder.eqb_cmp. exact Hnum.
  - left. apply FloatOrder.ltb_cmp. exact H.
Qed.

Lemma attempt_best d si :
  float_le (best_dist (fst (attempt cities d si))) (best_dist (fst si)).
Proof.
  attempt_cases d si; try apply float_le_refl.
  right. exact Ebest.
Qed.

Lemma update_best rnd s :
  float_le (best_dist (update cities rnd s)) (best_dist s).
Proof.
  destruct (update_fields rnd s) as (_ & _ & -> & _).
  apply (batch_preserves
           (fun si => float_le (best_dist (fst si)) (best_dist s))).
  - intros d si H. exact (float_le_trans _ _ _ (attempt_best d si) H).
  - apply float_le_refl.
Qed.

Lemma run_S rnds n s :
  run cities rnds (S n) s = update cities (rnds n) (run cities rnds n s).
Proof. reflexivity. Qed.

(** C6 (monotonic best distance).  Within a run, [best_dist] never goes up:
    after a frame it is the value before the frame or a strictly smaller
    one, and so it is after any number of frames in a row; for a best
    distance that is a number (not a NaN) that is [<=] on floats. *)
Theorem best_dist_non_increasing (rnds : nat -> nat -> nat * nat) (s : state) :
  (forall rnd,
     best_dist (update cities rnd s) = best_dist s \/
     (best_dist (update cities rnd s) <? best_dist s) = true) /\
  (forall n,
     best_dist (run cities rnds n s) = best_dist s \/
     (best_dist (run cities rnds n s) <? best_dist s) = true) /\
  (forall n m, (n <= m)%nat ->
     (best_dist (run cities rnds n s) =? best_dist (run cities rnds n s))
       = true ->
     (best_dist (run cities rnds m s) <=? best_dist (run cities rnds n s))
       = true).
Proof.
  assert (Hstep : forall m n, (n <= m)%nat ->
            float_le (best_dist (run cities rnds m s))
                     (best_dist (run cities rnds n s))).
  { induction m as [|m IH]; intros n Hn.
    - replace n with 0%nat by lia. apply float_le_refl.
    - destruct (Nat.eq_dec n (S m)) as [-> | Hne]; [apply float_le_refl|].
      rewrite run_S.
      apply (float_le_trans _ _ _ (update_best _ _)). apply IH. lia. }
  split; [|split].
  - intros rnd. apply update_best.
  - intros n. apply (Hstep n 0%nat). lia.
  - intros n m Hnm Hnum. apply float_le_leb; [exact Hnum|].
    apply Hstep, Hnm.
Qed.

(** ** Stuck counter *)

Lemma all_rejected_stuck rnd s k :
  (forall i, (i < k)%nat -> accepted cities rnd s i = false) ->
  stuck_counter (fst (batch cities rnd k (s, false))) =
  (stuck_counter s + k)%nat.
Proof.
  induction k as [|k IH]; intros H.
  - cbn. lia.
  - rewrite batch_S, attempt_stuck.
    fold (accepted cities rnd s k). rewrite (H k) by lia.
    rewrite IH by (intros i Hi; apply H; lia). lia.
Qed.

(** C7 (stuck counter accounting).  Within the batch of ten candidates of a
    frame: if all ten are rejected the counter ends exactly ten above its
    value at the start of the frame; a pass that accepts its candidate
    leaves the counter at 0; and a pass that rejects its candidate leaves
    it one above what the previous pass left, also after an acceptance
    earlier in the same batch.  The frame changes the counter nowhere
    else. *)
Theorem stuck_counter_accounting (rnd : nat -> nat * nat) (s : state) :
  ((forall k, (k < 10)%nat -> accepted cities rnd s k = false) ->
   stuck_counter (update cities rnd s) = (stuck_counter s + 10)%nat) /\
  (forall k, (k < 10)%nat -> accepted cities rnd s k = true ->
     stuck_counter (fst (batch cities rnd (S k) (s, false))) = 0%nat) /\
  (forall k, (k < 10)%nat -> accepted cities rnd s k = false ->
     stuck_counter (fst (batch cities rnd (S k) (s, false))) =
     (stuck_counter (fst (batch cities rnd k (s, false))) + 1)%nat) /\
  stuck_counter (update cities rnd s) =
  stuck_counter (fst (batch cities rnd 10 (s, false))).
Proof.
  destruct (update_fields rnd s) as (_ & _ & _ & Hs & _).
  split; [|split; [|split]].
  - intros H. rewrite Hs. apply all_rejected_stuck. exact H.
  - intros k _ H. rewrite batch_S, attempt_stuck.
    fold (accepted cities rnd s k). rewrite H. reflexivity.
  - intros k _ H. rewrite batch_S, attempt_stuck.
    fold (accepted cities rnd s k). rewrite H. reflexivity.
  - exact Hs.
Qed.

(** ** Classification and the registry of optima *)

Lemma batch_is_stuck_fields rnd s :
  let b := fst (batch cities rnd 10 (s, false)) in
  stuck_counter (record_frame b) = stuck_counter b /\
  current_dist (record_frame b) = current_dist b /\
  local_optima_distances (record_frame b) = local_optima_distances s /\
  is_global (record_frame b) = is_global b.
Proof.
  intros b. cbn. repeat split.
  exact (batch_registry rnd 10 (s, false)).
Qed.

(** C3 (global-so-far classification).  On every frame whose batch ends
    with [stuck_counter >= STUCK_THRESHOLD], whatever the counter was
    before the frame, [is_global] is set to exactly: the registry is empty,
    or [current_dist] is strictly below the minimum of the registry, where
    the registry is the one the frame started with, i.e. before the
    insertion this frame may make. *)
Theorem global_so_far_classification (rnd : nat -> nat * nat) (s : state) :
  (STUCK_THRESHOLD <= stuck_counter (update cities rnd s))%nat ->
  is_global (update cities rnd s) =
  match local_optima_distances s with
  | [] => true
  | d :: ds => current_dist (update cities rnd s) <? py_min d ds
  end.
Proof.
  destruct (update_fields rnd s) as (_ & Hd & _ & Hs & _).
  rewrite Hs, Hd. intros Hstuck.
  destruct (batch_is_stuck_fields rnd s) as (Es & Ed & Er & _).
  unfold update, classify. rewrite Es, Ed, Er.
  apply Nat.leb_le in Hstuck. rewrite Hstuck. reflexivity.
Qed.

(** Outside the stuck regime the frame leaves the flag as the batch left
    it, and the registry as it was. *)
Lemma not_stuck_untouched rnd s :
  (stuck_counter (update cities rnd s) < STUCK_THRESHOLD)%nat ->
  is_global (update cities rnd s) =
  is_global (fst (batch cities rnd 10 (s, false))) /\
  local_optima_distances (update cities rnd s) = local_optima_distances s.
Proof.
  destruct (update_fields rnd s) as (_ & _ & _ & Hs & _).
  rewrite Hs. intros Hlt.
  destruct (batch_is_stuck_fields rnd s) as (Es & _ & Er & Eg).
  unfold update, classify. rewrite Es.
  apply Nat.leb_gt in Hlt. rewrite Hlt. split; assumption.
Qed.

Lemma update_registry rnd s :
  local_optima_distances (update cities rnd s) =
  if (STUCK_THRESHOLD <=? stuck_counter (update cities rnd s))%nat
  then if existsb (within_tolerance (current_dist (update cities rnd s)))
            (local_optima_distances s)
       then local_optima_distances s
       else local_optima_distances s ++ [current_dist (update cities rnd s)]
  else local_optima_distances s.
Proof.
  destruct (update_fields rnd s) as (_ & Hd & _ & Hs & _).
  rewrite Hs, Hd.
  destruct (batch_is_stuck_fields rnd s) as (Es & Ed & Er & _).
  unfold update, classify. rewrite Es, Ed, Er.
  destruct (STUCK_THRESHOLD <=? _)%nat; [|exact Er].
  cbn [local_optima_distances]. unfold is_new_optimum.
  destruct (local_optima_distances s) as [|d ds]; [reflexivity|].
  destruct (existsb _ _); reflexivity.
Qed.

Lemma app_one_neq {A} (l : list A) (x : A) : l ++ [x] <> l.
Proof.
  intros H. apply (f_equal (@length A)) in H.
  rewrite length_app in H. cbn in H. lia.
Qed.

(** C9 (registry dedup).  On a frame where the stuck regime applies,
    [current_dist] is appended to the registry if and only if no entry of
    the registry is within the tolerance [1e-6] of it, the test being the
    program's [abs(current_dist - d) < 1e-6] on float64; otherwise the
    registry is unchanged.  So an optimum less than [1e-6] away from an
    entry registers as that entry, and one at least [1e-6] away from every
    entry registers as a new one. *)
Theorem registry_dedup (rnd : nat -> nat * nat) (s : state) :
  (STUCK_THRESHOLD <= stuck_counter (update cities rnd s))%nat ->
  let x := current_dist (update cities rnd s) in
  let reg := local_optima_distances s in
  let reg' := local_optima_distances (update cities rnd s) in
  (reg' = reg ++ [x] <->
   forall d, In d reg -> (abs (x - d) <? tolerance) = false) /\
  (reg' = reg <->
   exists d, In d reg /\ (abs (x - d) <? tolerance) = true) /\
  ((forall d, In d reg -> (tolerance <=? abs (x - d)) = true) ->
   reg' = reg ++ [x]).
Proof.
  intros Hstuck x reg reg'.
  assert (E : reg' = if existsb (within_tolerance x) reg
                     then reg else reg ++ [x]).
  { subst reg' x reg. rewrite update_registry.
    apply Nat.leb_le in Hstuck. rewrite Hstuck. reflexivity. }
  assert (Hex : existsb (within_tolerance x) reg = true <->
                exists d, In d reg /\ (abs (x - d) <? tolerance) = true).
  { apply existsb_exists. }
  assert (Hnew : (forall d, In d reg -> (abs (x - d) <? tolerance) = false)
                 -> reg' = reg ++ [x]).
  { intros H. rewrite E.
    destruct (existsb _ _) eqn:B; [|reflexivity].
    destruct (proj1 Hex eq_refl) as (d & Hd & W).
    rewrite (H d Hd) in W. discriminate. }
  split; [|split].
  - split; [|exact Hnew].
    intros H d Hd. destruct (abs (x - d) <? tolerance) eqn:B; [|reflexivity].
    assert (X : existsb (within_tolerance x) reg = true).
    { apply Hex. exists d. split; assumption. }
    rewrite X in E. rewrite E in H. symmetry in H.
    now apply app_one_neq in H.
  - split.
    + intros H. apply Hex.
      destruct (existsb _ _); [reflexivity|].
      rewrite H in E. symmetry in E. now apply app_one_neq in E.
    + intros H. apply Hex in H. rewrite H in E. exact E.
  - intros H. apply Hnew. intros d Hd.
    apply FloatOrder.leb_not_ltb, H, Hd.
Qed.

Lemma within_tolerance_sym x d : within_tolerance x d = within_tolerance d x.
Proof. apply FloatOrder.abs_sub_ltb_sym. Qed.

Lemma nth_error_snoc {A} (l : list A) (x a : A) i :
  nth_error (l ++ [x]) i = Some a ->
  ((i < length l)%nat /\ nth_error l i = Some a) \/
  (i = length l /\ a = x).
Proof.
  intros H. destruct (Nat.lt_ge_cases i (length l)) as [Hlt | Hge].
  - left. rewrite nth_error_app1 in H by exact Hlt. split; assumption.
  - right. rewrite nth_error_app2 in H by exact Hge.
    destruct (i - length l)%nat as [|[|n]] eqn:En; cbn in H;
      try discriminate.
    split; [lia | congruence].
Qed.

Lemma separated_snoc registry x :
  separated registry ->
  existsb (within_tolerance x) registry = false ->
  separated (registry ++ [x]).
Proof.
  intros Hsep Hx i j a b Hij Hi Hj.
  assert (Hfar : forall d k, nth_error registry k = Some d ->
                   within_tolerance x d = false).
  { intros d k Hk. apply nth_error_In in Hk.
    destruct (within_tolerance x d) eqn:W; [|reflexivity].
    assert (X : existsb (within_tolerance x) registry = true)
      by (apply existsb_exists; exists d; split; assumption).
    congruence. }
  apply nth_error_snoc in Hi. apply nth_error_snoc in Hj.
  destruct Hi as [(_ & Hi) | (-> & ->)], Hj as [(_ & Hj) | (-> & ->)].
  - exact (Hsep i j a b Hij Hi Hj).
  - rewrite within_tolerance_sym. exact (Hfar a i Hi).
  - exact (Hfar b j Hj).
  - contradiction.
Qed.

Lemma update_separated rnd s :
  separated (local_optima_distances s) ->
  separated (local_optima_distances (update cities rnd s)).
Proof.
  intros H. rewrite update_registry.
  destruct (STUCK_THRESHOLD <=? _)%nat; [|exact H].
  destruct (existsb _ _) eqn:B; [exact H|].
  apply separated_snoc; assumption.
Qed.

(** C10 (pairwise separation of the registry).  The registry starts empty,
    and in every state a run can reach, any two entries at different
    positions are not within [1e-6] of each other, in either order; when
    their float64 difference is a number (not a NaN), its absolute value is
    at least [1e-6].  Every frame preserves this, and so does a restart. *)
Theorem registry_pairwise_separated :
  (forall p, local_optima_distances (initial cities p) = []) /\
  (forall s, reachable cities s ->
     forall i j x d, i <> j ->
       nth_error (local_optima_distances s) i = Some x ->
       nth_error (local_optima_distances s) j = Some d ->
       (abs (x - d) <? tolerance) = false /\
       (is_nan (abs (x - d)) = false ->
        (tolerance <=? abs (x - d)) = true)) /\
  (forall rnd s, separated (local_optima_distances s) ->
     separated (local_optima_distances (update cities rnd s))).
Proof.
  split; [reflexivity|]. split; [|exact update_separated].
  intros s H.
  assert (Hsep : separated (local_optima_distances s)).
  { induction H as [p Hp | rnd s _ IH | p s Hp _ IH].
    - intros [|i] j x d _ Hi; discriminate.
    - apply update_separated, IH.
    - exact IH. }
  intros i j x d Hij Hi Hj.
  pose proof (Hsep i j x d Hij Hi Hj) as W. unfold within_tolerance in W.
  split; [exact W|].
  intros Hnum. apply FloatOrder.not_ltb_leb; [exact Hnum|reflexivity|exact W].
Qed.

(** ** The status badge *)

(** C8 (classifier exclusivity).  The status is a function of the state,
    so exactly one of the four holds, and it is decided by
    [stuck_counter] and [is_global] alone: improving exactly when the
    counter is 0, searching exactly when it is positive and below the
    threshold 50, global optimum exactly when it has reached the threshold
    and [is_global] is set, local optimum exactly when it has reached the
    threshold and [is_global] is not set. *)
Theorem classifier_exclusive (s : state) :
  (get_status s = Improving <-> stuck_counter s = 0%nat) /\
  (get_status s = Searching <->
   (0 < stuck_counter s)%nat /\ (stuck_counter s < STUCK_THRESHOLD)%nat) /\
  (get_status s = GlobalOptimum <->
   (STUCK_THRESHOLD <= stuck_counter s)%nat /\ is_global s = true) /\
  (get_status s = LocalOptimum <->
   (STUCK_THRESHOLD <= stuck_counter s)%nat /\ is_global s = false) /\
  (forall s', stuck_counter s' = stuck_counter s ->
              is_global s' = is_global s -> get_status s' = get_status s).
Proof.
  unfold get_status, STUCK_THRESHOLD.
  repeat split.
  all: try (intros s' -> ->; reflexivity).
  all: destruct (Nat.eqb_spec (stuck_counter s) 0);
       destruct (Nat.ltb_spec (stuck_counter s) 50);
       destruct (is_global s);
       try discriminate; try reflexivity; try lia;
       try (intros [? ?]; first [lia | discriminate]);
       try (intros _; lia).
Qed.

(** ** Restart *)

(** What [restart] writes and what it leaves alone. *)
Lemma restart_fields p s :
  current (restart cities p s) = p /\
  current_dist (restart cities p s) = total_distance cities p /\
  distance_history (restart cities p s) = [total_distance cities p] /\
  iteration (restart cities p s) = 0%nat /\
  stuck_counter (restart cities p s) = 0%nat /\
  best_dist (restart cities p s) = best_dist s /\
  is_global (restart cities p s) = is_global s /\
  local_optima_distances (restart cities p s) = local_optima_distances s.
Proof. repeat split. Qed.

(** A batch that rejects every candidate only counts. *)
Lemma batch_all_rejected rnd k s :
  (forall i, (i < k)%nat ->
     (total_distance cities (two_opt_swap (current s) (rnd i))
        <? current_dist s)
       = false) ->
  batch cities rnd k (s, false) =
  (mkState (current s) (current_dist s) (best_dist s) (distance_history s)
     (iteration s) (stuck_counter s + k)%nat (is_global s)
     (local_optima_distances s), false).
Proof.
  induction k as [|k IH]; intros H.
  - rewrite batch_0, Nat.add_0_r. destruct s; reflexivity.
  - rewrite batch_S, IH by (intros i Hi; apply H; lia).
    rewrite attempt_rejected by (apply H; lia).
    cbn [current current_dist best_dist distance_history iteration
         stuck_counter is_global local_optima_distances].
    replace (stuck_counter s + k + 1)%nat with (stuck_counter s + S k)%nat
      by lia.
    reflexivity.
Qed.

Lemma run_reachable rnds n s :
  reachable cities s -> reachable cities (run cities rnds n s).
Proof.
  intros H. induction n as [|n IH]; [exact H|].
  rewrite run_S. apply reach_update, IH.
Qed.

End EngineFacts.

(** ** The unit square *)

(** No closed tour over the four corners is shorter than the perimeter. *)
Lemma unit_square_optimum (route : list nat) :
  Permutation route [0; 1; 2; 3]%nat ->
  (total_distance unit_square route <? 4) = false.
Proof.
  intros H.
  pose proof (Permutation_length H) as Hlen.
  destruct route as [|a [|b [|c [|d [|e route]]]]]; try discriminate.
  assert (Hin : forall x, In x [a; b; c; d] -> In x [0; 1; 2; 3]%nat)
    by (intros x; apply Permutation_in; exact H).
  pose proof (Hin a (or_introl eq_refl)) as Ha.
  pose proof (Hin b (or_intror (or_introl eq_refl))) as Hb.
  pose proof (Hin c (or_intror (or_intror (or_introl eq_refl)))) as Hc.
  pose proof (Hin d (or_intror (or_intror (or_intror (or_introl eq_refl)))))
    as Hd.
  clear Hin Hlen.
  pose proof (proj1 (Permutation_count_occ Nat.eq_dec _ _) H) as Hocc.
  clear H. cbn [In] in Ha, Hb, Hc, Hd.
  destruct Ha as [<- | [<- | [<- | [<- | []]]]];
  destruct Hb as [<- | [<- | [<- | [<- | []]]]];
  destruct Hc as [<- | [<- | [<- | [<- | []]]]];
  destruct Hd as [<- | [<- | [<- | [<- | []]]]];
  first
    [ vm_compute; reflexivity
    | exfalso;
      pose proof (Hocc 0%nat) as H0; pose proof (Hocc 1%nat) as H1;
      pose proof (Hocc 2%nat) as H2; pose proof (Hocc 3%nat) as H3;
      vm_compute in H0, H1, H2, H3; congruence ].
Qed.

(** At a tour of length 4 over the unit square every candidate is
    rejected, whatever positions are drawn. *)
Lemma unit_square_batch rnd k s :
  Permutation (current s) [0; 1; 2; 3]%nat -> current_dist s = 4 ->
  batch unit_square rnd k (s, false) =
  (mkState (current s) (current_dist s) (best_dist s) (distance_history s)
     (iteration s) (stuck_counter s + k)%nat (is_global s)
     (local_optima_distances s), false).
Proof.
  intros Hp Hd. apply batch_all_rejected. intros i _. rewrite Hd.
  apply unit_square_optimum. rewrite two_opt_swap_perm. exact Hp.
Qed.

Lemma at_optimum_update rnd n s :
  at_optimum n s -> at_optimum (S n) (update unit_square rnd s).
Proof.
  intros (Hc & Hd & Hs & Hg & Hr).
  unfold update. rewrite unit_square_batch by (rewrite ?Hc; auto).
  unfold classify, record_frame. cbn [fst stuck_counter current current_dist
    best_dist distance_history iteration is_global local_optima_distances].
  rewrite Hs, Hd, Hr, Hc, Hg.
  do 6 (destruct n as [|n]; [vm_compute; repeat split|]).
  replace (STUCK_THRESHOLD <=? 10 * S (S (S (S (S (S n))))) + 10)%nat
    with true by (symmetry; apply Nat.leb_le; unfold STUCK_THRESHOLD; lia).
  repeat split. cbn [stuck_counter]. lia.
Qed.

Lemma at_optimum_run rnds n :
  at_optimum n (run unit_square rnds n (initial unit_square [0; 1; 2; 3]%nat)).
Proof.
  induction n as [|n IH].
  - vm_compute. repeat split.
  - rewrite run_S. apply at_optimum_update, IH.
Qed.

(** The first half of the scenario depends on the draws: from a crossing
    tour, reversing the middle segment reaches the perimeter in one frame,
    while reversing the whole tour for ever never does. *)
Lemma unit_square_can_reach_optimum :
  current_dist
    (update unit_square (fun _ => (1, 2)%nat)
       (initial unit_square [0; 2; 1; 3]%nat)) = 4.
Proof. vm_compute. reflexivity. Qed.

Lemma unit_square_can_miss_optimum n :
  let s := run unit_square (fun _ _ => (0, 3)%nat) n
             (initial unit_square [0; 2; 1; 3]%nat) in
  current s = [0; 2; 1; 3]%nat /\ (4 <? current_dist s) = true.
Proof.
  cbv zeta.
  assert (H : let s := run unit_square (fun _ _ => (0, 3)%nat) n
                         (initial unit_square [0; 2; 1; 3]%nat) in
              current s = [0; 2; 1; 3]%nat /\
              current_dist s = total_distance unit_square [0; 2; 1; 3]%nat).
  { cbv zeta. induction n as [|n (Hc & Hd)].
    - split; reflexivity.
    - rewrite run_S. set (s := run _ _ n _) in *.
      destruct (update_fields unit_square (fun _ => (0, 3)%nat) s)
        as (-> & -> & _).
      rewrite batch_all_rejected.
      + split; assumption.
      + intros i _. rewrite Hc, Hd. vm_compute. reflexivity. }
  destruct H as (Hc & Hd). split; [exact Hc|].
  rewrite Hd. vm_compute. reflexivity.
Qed.

(** C2 (unit-square scenario).  Start at the optimal tour [0,1,2,3] of
    length 4.0 and run frames with any draws whatever.  The length stays
    4.0 and every frame adds ten failures.  After the fifth frame the
    counter is at the threshold 50, the status is global optimum and the
    registry holds the single entry 4.0.  From the sixth frame on, still
    stuck at the same tour and the same length, the status is local
    optimum: the length is compared with the minimum of a registry that
    now contains that very length, and [4.0 < 4.0] is false. *)
Theorem unit_square_global_then_local (rnds : nat -> nat -> nat * nat) :
  let s n := run unit_square rnds n (initial unit_square [0; 1; 2; 3]%nat) in
  (forall n, current (s n) = [0; 1; 2; 3]%nat /\
             current_dist (s n) = 4 /\
             stuck_counter (s n) = (10 * n)%nat) /\
  (get_status (s 5%nat) = GlobalOptimum /\
   local_optima_distances (s 5%nat) = [4]) /\
  (forall n, get_status (s (6 + n)%nat) = LocalOptimum /\
             local_optima_distances (s (6 + n)%nat) = [4]).
Proof.
  intros s. subst s. cbv beta. split; [|split].
  - intros n. destruct (at_optimum_run rnds n) as (Hc & Hd & Hs & _).
    repeat split; assumption.
  - destruct (at_optimum_run rnds 5) as (_ & _ & Hs & Hg & Hr).
    split; [|exact Hr].
    unfold get_status. rewrite Hs, Hg. reflexivity.
  - intros n.
    destruct (at_optimum_run rnds (6 + n)) as (_ & _ & Hs & Hg & Hr).
    split; [|exact Hr].
    unfold get_status. rewrite Hs, Hg.
    unfold STUCK_THRESHOLD.
    destruct (Nat.eqb_spec (10 * (6 + n)) 0); [lia|].
    destruct (Nat.ltb_spec (10 * (6 + n)) 50); [lia|].
    reflexivity.
Qed.

Lemma two_optima_state_reachable : reachable unit_square two_optima_state.
Proof.
  apply run_reachable, reach_initial.
  apply perm_skip, perm_swap.
Qed.

(** C1 (restart resets fully).  A reachable state where the claim fails:
    after five frames at the optimum of the unit square, [restart] with
    the crossing tour does zero the frame and stuck counters and leaves a
    one-entry history holding the new distance, but the registry still
    holds 4.0, [is_global] is still set, and [best_dist] is still 4.0,
    below the distance of the new tour. *)
Theorem restart_leaves_stale_fields :
  let s := run unit_square (fun _ _ => (0, 1)%nat) 5
             (initial unit_square [0; 1; 2; 3]%nat) in
  let s' := restart unit_square [0; 2; 1; 3]%nat s in
  reachable unit_square s' /\
  (iteration s' = 0%nat /\ stuck_counter s' = 0%nat /\
   distance_history s' = [current_dist s'] /\
   current_dist s' = total_distance unit_square [0; 2; 1; 3]%nat) /\
  local_optima_distances s' = [4] /\
  is_global s' = true /\
  best_dist s' = 4 /\
  (best_dist s' <? current_dist s') = true.
Proof.
  cbv zeta. split.
  - apply reach_restart; [apply perm_skip, perm_swap|].
    apply run_reachable, reach_initial, Permutation_refl.
  - vm_compute. repeat split.
Qed.

(** ** The theorems at concrete inputs

    Each statement with a premise is applied once to a run on the unit
    square, with the premise established there. *)

(** The crossing tour is a permutation, and so is its 2-opt neighbour. *)
Lemma tour_permutation_invariant_witness :
  Permutation [0; 2; 1; 3]%nat (seq 0 (N unit_square)) /\
  Permutation (two_opt_swap [0; 2; 1; 3]%nat (1, 2)%nat)
    (seq 0 (N unit_square)).
Proof.
  assert (H : Permutation [0; 2; 1; 3]%nat (seq 0 (N unit_square)))
    by (apply perm_skip, perm_swap).
  split; [exact H|].
  exact (proj2 (tour_permutation_invariant unit_square) _ _ H).
Defined.

(** A frame from a stuck state whose distance is a number. *)
Lemma strict_descent_acceptance_witness :
  (current_dist two_optima_state =? current_dist two_optima_state) = true /\
  (current_dist (update unit_square (fun _ => (1, 2)%nat) two_optima_state)
     <=? current_dist two_optima_state) = true.
Proof.
  assert (H : (current_dist two_optima_state
                 =? current_dist two_optima_state) = true)
    by (vm_compute; reflexivity).
  split; [exact H|].
  exact (proj1 (proj2 (strict_descent_acceptance unit_square
                         (fun _ => (1, 2)%nat) two_optima_state)) H).
Defined.

(** The frame that uncrosses the tour lowers the best distance. *)
Lemma best_dist_non_increasing_witness :
  (best_dist (run unit_square two_optima_draws 5
                (initial unit_square [0; 2; 1; 3]%nat))
   =? best_dist (run unit_square two_optima_draws 5
                   (initial unit_square [0; 2; 1; 3]%nat))) = true /\
  (best_dist (run unit_square two_optima_draws 6
                (initial unit_square [0; 2; 1; 3]%nat))
   <=? best_dist (run unit_square two_optima_draws 5
                    (initial unit_square [0; 2; 1; 3]%nat))) = true.
Proof.
  assert (H : (best_dist (run unit_square two_optima_draws 5
                            (initial unit_square [0; 2; 1; 3]%nat))
               =? best_dist (run unit_square two_optima_draws 5
                               (initial unit_square [0; 2; 1; 3]%nat)))
              = true)
    by (vm_compute; reflexivity).
  split; [exact H|].
  refine (proj2 (proj2 (best_dist_non_increasing unit_square two_optima_draws
                          (initial unit_square [0; 2; 1; 3]%nat)))
            5%nat 6%nat _ H).
  lia.
Defined.

(** Ten whole-tour reversals of the crossing tour are ten rejections. *)
Lemma stuck_counter_accounting_witness :
  stuck_counter
    (update unit_square (fun _ => (0, 3)%nat)
       (initial unit_square [0; 2; 1; 3]%nat)) = 10%nat.
Proof.
  refine (proj1 (stuck_counter_accounting unit_square (fun _ => (0, 3)%nat)
                   (initial unit_square [0; 2; 1; 3]%nat)) _).
  intros k Hk.
  do 10 (destruct k as [|k]; [vm_compute; reflexivity|]).
  lia.
Defined.

(** The frame that gets stuck at 4.0 with the crossing length registered. *)
Lemma global_so_far_classification_witness :
  (STUCK_THRESHOLD
   <= stuck_counter (update unit_square (fun _ => (1, 2)%nat)
                       two_optima_state))%nat /\
  is_global (update unit_square (fun _ => (1, 2)%nat) two_optima_state) =
  match local_optima_distances two_optima_state with
  | [] => true
  | d :: ds =>
      current_dist (update unit_square (fun _ => (1, 2)%nat)
                      two_optima_state) <? py_min d ds
  end.
Proof.
  assert (H : (STUCK_THRESHOLD
               <= stuck_counter (update unit_square (fun _ => (1, 2)%nat)
                                   two_optima_state))%nat)
    by (vm_compute; lia).
  split; [exact H|].
  exact (global_so_far_classification unit_square _ _ H).
Defined.

Lemma two_optima_registry :
  local_optima_distances two_optima_state =
  [total_distance unit_square [0; 2; 1; 3]%nat].
Proof. vm_compute. reflexivity. Qed.

(** On that frame 4.0 is far from the registered length and is appended. *)
Lemma registry_dedup_witness :
  (STUCK_THRESHOLD
   <= stuck_counter (update unit_square (fun _ => (1, 2)%nat)
                       two_optima_state))%nat /\
  local_optima_distances
    (update unit_square (fun _ => (1, 2)%nat) two_optima_state) =
  local_optima_distances two_optima_state
    ++ [current_dist (update unit_square (fun _ => (1, 2)%nat)
                        two_optima_state)].
Proof.
  assert (H : (STUCK_THRESHOLD
               <= stuck_counter (update unit_square (fun _ => (1, 2)%nat)
                                   two_optima_state))%nat)
    by (vm_compute; lia).
  split; [exact H|].
  refine (proj2 (proj2 (registry_dedup unit_square _ _ H)) _).
  rewrite two_optima_registry. intros d [<- | []].
  vm_compute. reflexivity.
Defined.

(** The two registered lengths are at least the tolerance apart. *)
Lemma registry_pairwise_separated_witness :
  let s := update unit_square (fun _ => (1, 2)%nat) two_optima_state in
  local_optima_distances s = [total_distance unit_square [0; 2; 1; 3]%nat; 4]
  /\ (tolerance <=? abs (total_distance unit_square [0; 2; 1; 3]%nat - 4))
     = true.
Proof.
  cbv zeta. split; [vm_compute; reflexivity|].
  refine (proj2 (proj1 (proj2 (registry_pairwise_separated unit_square))
                   (update unit_square (fun _ => (1, 2)%nat) two_optima_state)
                   (reach_update unit_square _ _ two_optima_state_reachable)
                   0%nat 1%nat
                   (total_distance unit_square [0; 2; 1; 3]%nat) 4 _ _ _) _).
  - lia.
  - vm_compute. reflexivity.
  - vm_compute. reflexivity.
  - vm_compute. reflexivity.
Defined.

(** ** Further properties: the move generator *)

Lemma two_opt_swap_app (A B C : list nat) (i j : nat) :
  length A = i -> (i <= j)%nat ->
  (length B = j + 1 - i)%nat \/ ((length B <= j + 1 - i)%nat /\ C = []) ->
  two_opt_swap (A ++ B ++ C) (i, j) = A ++ rev B ++ C.
Proof.
  intros HA Hij HB. unfold two_opt_swap. cbn [fst snd].
  rewrite Nat.min_l, Nat.max_r by lia.
  rewrite firstn_app, skipn_app, (skipn_app (j + 1)), HA.
  rewrite Nat.sub_diag, firstn_0, app_nil_r.
  rewrite (firstn_all2 A), (skipn_all2 A), (skipn_all2 (n := j + 1) A) by lia.
  cbn [app skipn].
  rewrite firstn_app, skipn_app.
  destruct HB as [HB | [HB ->]].
  - rewrite HB, Nat.sub_diag, firstn_0, app_nil_r.
    rewrite (firstn_all2 B), (skipn_all2 B) by lia.
    replace (j + 1 - i - (j + 1 - i))%nat with 0%nat by lia.
    reflexivity.
  - rewrite (firstn_all2 B), (skipn_all2 B) by lia.
    rewrite firstn_nil, skipn_nil, !app_nil_r. reflexivity.
Qed.

Lemma two_opt_swap_sorted (route : list nat) (a b : nat) :
  two_opt_swap route (a, b) = two_opt_swap route (Nat.min a b, Nat.max a b).
Proof.
  unfold two_opt_swap. cbn [fst snd].
  replace (Nat.min (Nat.min a b) (Nat.max a b)) with (Nat.min a b) by lia.
  replace (Nat.max (Nat.min a b) (Nat.max a b)) with (Nat.max a b) by lia.
  reflexivity.
Qed.

(** A route cut at two positions [i <= j] inside it. *)
Lemma route_segments (route : list nat) (i j : nat) :
  (i <= j)%nat -> (j < length route)%nat ->
  exists A B C, route = A ++ B ++ C /\
                length A = i /\ length B = (j + 1 - i)%nat.
Proof.
  intros Hij Hj.
  exists (firstn i route), (firstn (j + 1 - i) (skipn i route)),
         (skipn (j + 1) route).
  split; [|split].
  - pose proof (two_opt_swap_segments route i (j + 1 - i)) as H.
    replace (j + 1 - i + i)%nat with (j + 1)%nat in H by lia.
    symmetry. exact H.
  - rewrite length_firstn. lia.
  - rewrite length_firstn, length_skipn. lia.
Qed.

(** X1 (segment reversal, position by position).  For a pair of positions
    inside the route, in either order, [two_opt_swap] returns a route of
    the same length whose entry at [k] is the entry of the input at
    [i + j - k] when [k] lies in the closed range from the smaller position
    [i] to the larger [j], and the entry at [k] otherwise. *)
Theorem two_opt_swap_positions (route : list nat) (a b k : nat) :
  (a < length route)%nat -> (b < length route)%nat ->
  length (two_opt_swap route (a, b)) = length route /\
  nth k (two_opt_swap route (a, b)) 0%nat =
  nth (if (Nat.min a b <=? k)%nat && (k <=? Nat.max a b)%nat
       then (Nat.min a b + Nat.max a b - k)%nat else k) route 0%nat.
Proof.
  intros Ha Hb. split.
  { apply Permutation_length, two_opt_swap_perm. }
  rewrite two_opt_swap_sorted.
  set (i := Nat.min a b). set (j := Nat.max a b).
  assert (Hij : (i <= j)%nat) by (subst i j; lia).
  assert (Hj : (j < length route)%nat) by (subst j; lia).
  destruct (route_segments route i j Hij Hj) as (A & B & C & -> & HA & HB).
  rewrite two_opt_swap_app by (try assumption; left; assumption).
  destruct (Nat.leb_spec i k) as [Hik | Hik]; cbn [andb].
  - destruct (Nat.leb_spec k j) as [Hkj | Hkj].
    + rewrite (app_nth2 A (rev B ++ C)), (app_nth2 A (B ++ C)) by lia.
      rewrite (app_nth1 (rev B)) by (rewrite length_rev; lia).
      rewrite (app_nth1 B) by lia.
      rewrite rev_nth by lia. f_equal. lia.
    + rewrite (app_nth2 A (rev B ++ C)), (app_nth2 A (B ++ C)) by lia.
      rewrite (app_nth2 (rev B)) by (rewrite length_rev; lia).
      rewrite (app_nth2 B) by lia.
      rewrite length_rev. reflexivity.
  - rewrite (app_nth1 A (rev B ++ C)), (app_nth1 A (B ++ C)) by lia.
    reflexivity.
Qed.

Lemma two_opt_swap_outside (route : list nat) (i j : nat) :
  (length route <= i)%nat -> (i <= j)%nat ->
  two_opt_swap route (i, j) = route.
Proof.
  intros Hi Hij. unfold two_opt_swap. cbn [fst snd].
  rewrite Nat.min_l, Nat.max_r by lia.
  rewrite (firstn_all2 route), (skipn_all2 (n := i) route),
    (skipn_all2 (n := j + 1) route) by lia.
  rewrite firstn_nil. cbn. apply app_nil_r.
Qed.

(** X2 (the move undoes itself).  Reversing the same segment twice gives
    the route back, for every pair of positions, also ones past the end of
    the route. *)
Theorem two_opt_swap_involutive (route : list nat) (draw : nat * nat) :
  two_opt_swap (two_opt_swap route draw) draw = route.
Proof.
  destruct draw as [a b].
  rewrite (two_opt_swap_sorted route), two_opt_swap_sorted.
  set (i := Nat.min a b). set (j := Nat.max a b).
  assert (Hij : (i <= j)%nat) by (subst i j; lia).
  clearbody i j. clear a b.
  destruct (Nat.lt_ge_cases i (length route)) as [Hi | Hi].
  - destruct (Nat.lt_ge_cases j (length route)) as [Hj | Hj].
    + destruct (route_segments route i j Hij Hj)
        as (A & B & C & -> & HA & HB).
      rewrite two_opt_swap_app by (try assumption; left; assumption).
      rewrite two_opt_swap_app
        by (try assumption; left; rewrite length_rev; assumption).
      rewrite rev_involutive. reflexivity.
    + rewrite <- (firstn_skipn i route) at 2.
      rewrite <- (firstn_skipn i route) at 1.
      rewrite <- (app_nil_r (skipn i route)).
      assert (HA : length (firstn i route) = i)
        by (rewrite length_firstn; lia).
      assert (HB : (length (skipn i route) <= j + 1 - i)%nat)
        by (rewrite length_skipn; lia).
      rewrite two_opt_swap_app by (try assumption; right; split; auto).
      rewrite two_opt_swap_app
        by (try assumption; right; rewrite length_rev; split; auto).
      rewrite rev_involutive. reflexivity.
  - rewrite (two_opt_swap_outside route) by assumption.
    apply two_opt_swap_outside; assumption.
Qed.

(** The segment between positions 1 and 2 of a four-city route. *)
Lemma two_opt_swap_positions_witness :
  ((2 < length [0; 2; 1; 3]%nat)%nat /\ (1 < length [0; 2; 1; 3]%nat)%nat) /\
  length (two_opt_swap [0; 2; 1; 3]%nat (2, 1)%nat) = 4%nat /\
  nth 1 (two_opt_swap [0; 2; 1; 3]%nat (2, 1)%nat) 0%nat = 1%nat.
Proof.
  assert (Ha : (2 < length [0; 2; 1; 3]%nat)%nat) by (simpl; lia).
  assert (Hb : (1 < length [0; 2; 1; 3]%nat)%nat) by (simpl; lia).
  split; [split; assumption|].
  exact (two_opt_swap_positions [0; 2; 1; 3]%nat 2 1 1 Ha Hb).
Defined.

(** ** Further properties: the run state *)

Section RunFacts.

Variable cities : list (float * float).

Lemma attempt_coherent d si :
  current_dist (fst si) = total_distance cities (current (fst si)) ->
  current_dist (fst (attempt cities d si)) =
  total_distance cities (current (fst (attempt cities d si))).
Proof.
  destruct si as [s imp]. cbn [fst]. intros H. unfold attempt.
  destruct (_ <? current_dist s); [|exact H].
  cbn [current current_dist best_dist].
  destruct (_ <? best_dist s); reflexivity.
Qed.

Lemma update_coherent rnd s :
  current_dist s = total_distance cities (current s) ->
  current_dist (update cities rnd s) =
  total_distance cities (current (update cities rnd s)).
Proof.
  intros H.
  destruct (update_fields cities rnd s) as (-> & -> & _).
  apply (batch_preserves cities
           (fun si => current_dist (fst si) =
                      total_distance cities (current (fst si)))).
  - intros d si. apply attempt_coherent.
  - exact H.
Qed.

(** X3 (the cached length is the length of the tour).  In every state a
    run can reach, [current_dist] is [total_distance] of [current]: the
    cache never goes stale, across frames and restarts. *)
Theorem current_dist_is_tour_length (s : state) :
  reachable cities s ->
  current_dist s = total_distance cities (current s).
Proof.
  intros H. induction H as [p _ | rnd s _ IH | p s _ _ _].
  - reflexivity.
  - apply update_coherent, IH.
  - reflexivity.
Qed.

Lemma update_descends rnd s :
  float_le (current_dist (update cities rnd s)) (current_dist s).
Proof.
  destruct (update_fields cities rnd s) as (_ & -> & _).
  destruct (batch_descent cities rnd 10 s) as [(_ & _ & H) | (_ & H)].
  - left. exact H.
  - right. exact H.
Qed.

Lemma non_increasing_snoc h x :
  non_increasing h -> h <> [] -> float_le x (last h 0) ->
  non_increasing (h ++ [x]).
Proof.
  intros Hh Hne Hx k a b Ha Hb.
  destruct (Nat.lt_ge_cases (S k) (length h)) as [Hk | Hk].
  - rewrite nth_error_app1 in Ha, Hb by lia. exact (Hh k a b Ha Hb).
  - assert (Hlen : S k = length h).
    { assert (Hb' : nth_error (h ++ [x]) (S k) <> None) by congruence.
      apply nth_error_Some in Hb'.
      rewrite length_app in Hb'. cbn in Hb'. lia. }
    rewrite nth_error_app1 in Ha by lia.
    rewrite nth_error_app2 in Hb by lia.
    replace (S k - length h)%nat with 0%nat in Hb by lia.
    cbn in Hb. injection Hb as <-.
    replace (last h 0) with a in Hx; [exact Hx|].
    destruct (exists_last Hne) as (h0 & y & ->).
    rewrite last_last.
    rewrite length_app in Hlen. cbn in Hlen.
    rewrite nth_error_app2 in Ha by lia.
    replace (k - length h0)%nat with 0%nat in Ha by lia.
    cbn in Ha. congruence.
Qed.

Lemma reachable_history (s : state) :
  reachable cities s ->
  length (distance_history s) = (iteration s + 1)%nat /\
  last (distance_history s) 0 = current_dist s /\
  non_increasing (distance_history s).
Proof.
  intros H. induction H as [p _ | rnd s _ (IHl & IHc & IHn) | p s _ _ _].
  - repeat split. intros [|[|k]] a b Ha Hb; discriminate.
  - destruct (update_fields cities rnd s) as (_ & Hd & _ & _ & Hi & Hh).
    rewrite Hh, Hi, <- Hd. split; [|split].
    + rewrite length_app. cbn. lia.
    + apply last_last.
    + apply non_increasing_snoc; [exact IHn | |].
      * intros E. rewrite E in IHl. cbn in IHl. lia.
      * rewrite IHc. apply update_descends.
  - repeat split. intros [|[|k]] a b Ha Hb; discriminate.
Qed.

Lemma non_increasing_tail d h : non_increasing (d :: h) -> non_increasing h.
Proof. intros H k a b Ha Hb. exact (H (S k) a b Ha Hb). Qed.

Lemma non_increasing_below_head d h :
  non_increasing (d :: h) -> forall e, In e h -> float_le e d.
Proof.
  revert d. induction h as [|x h IH]; intros d H e He; [destruct He|].
  assert (Hx : float_le x d) by (apply (H 0%nat); reflexivity).
  destruct He as [<- | He]; [exact Hx|].
  apply (float_le_trans _ x); [|exact Hx].
  apply IH; [apply (non_increasing_tail d), H | exact He].
Qed.

(** X4 (the logged history).  In every state a run can reach, the history
    holds one entry more than the frame counter says, its last entry is
    [current_dist], it never goes up (each entry is equal to or strictly
    below the one before it), and so no entry is above the first one. *)
Theorem history_invariant (s : state) :
  reachable cities s ->
  length (distance_history s) = (iteration s + 1)%nat /\
  last (distance_history s) 0 = current_dist s /\
  non_increasing (distance_history s) /\
  forall e, In e (distance_history s) ->
            float_le e (hd 0 (distance_history s)).
Proof.
  intros H. destruct (reachable_history s H) as (Hl & Hc & Hn).
  repeat split; try assumption.
  destruct (distance_history s) as [|d h]; [intros e []|].
  intros e [<- | He]; [apply float_le_refl|].
  exact (non_increasing_below_head d h Hn e He).
Qed.

Lemma attempt_best_is_current d si :
  best_dist (fst si) = current_dist (fst si) ->
  best_dist (fst (attempt cities d si)) =
  current_dist (fst (attempt cities d si)).
Proof.
  destruct si as [s imp]. cbn [fst]. intros H. unfold attempt.
  destruct (_ <? current_dist s) eqn:E; [|exact H].
  cbn [current current_dist best_dist].
  rewrite H, E. reflexivity.
Qed.

Lemma update_best_is_current rnd s :
  best_dist s = current_dist s ->
  best_dist (update cities rnd s) = current_dist (update cities rnd s).
Proof.
  intros H.
  destruct (update_fields cities rnd s) as (_ & -> & -> & _).
  apply (batch_preserves cities
           (fun si => best_dist (fst si) = current_dist (fst si))).
  - intros d si. apply attempt_best_is_current.
  - exact H.
Qed.

(** X5 (best equals current until a restart).  From the initial state,
    after any number of frames and whatever the draws, [best_dist] is
    [current_dist]: as long as no restart happens the two fields hold the
    same value. *)
Theorem best_is_current_without_restart
    (p : list nat) (rnds : nat -> nat -> nat * nat) (n : nat) :
  best_dist (run cities rnds n (initial cities p)) =
  current_dist (run cities rnds n (initial cities p)).
Proof.
  induction n as [|n IH].
  - reflexivity.
  - rewrite run_S. apply update_best_is_current, IH.
Qed.

End RunFacts.

(** ** Further properties: what a frame reports *)

Lemma float_le_no_ltb (r y : float) : float_le r y -> (y <? r) = false.
Proof.
  intros [-> | H]; [apply FloatOrder.ltb_irrefl|].
  destruct (y <? r) eqn:L; [|reflexivity].
  pose proof (FloatOrder.ltb_trans _ _ _ H L) as T.
  rewrite FloatOrder.ltb_irrefl in T. discriminate.
Qed.

Lemma float_le_keeps_above (x r y : float) :
  float_le r y -> (x <? y) = false -> (x <? r) = false.
Proof.
  intros [-> | H] N; [exact N|].
  destruct (x <? r) eqn:L; [|reflexivity].
  rewrite (FloatOrder.ltb_trans _ _ _ L H) in N. discriminate.
Qed.

Lemma py_min_fold (ds : list float) (d : float) :
  In (py_min d ds) (d :: ds) /\
  float_le (py_min d ds) d /\
  forall e, In e ds -> (e <? py_min d ds) = false.
Proof.
  unfold py_min. revert d. induction ds as [|x ds IH]; intros d.
  - cbn. split; [left; reflexivity|]. split; [apply float_le_refl|].
    intros e [].
  - cbn [fold_left].
    destruct (IH (if x <? d then x else d)) as (Hin & Hle & Hlow).
    set (r := fold_left _ ds _) in *.
    split; [|split].
    + destruct Hin as [Hin | Hin].
      * rewrite <- Hin. destruct (x <? d); [right; left|left]; reflexivity.
      * right. right. exact Hin.
    + destruct (x <? d) eqn:E; [|exact Hle].
      apply (float_le_trans _ _ _ Hle). right. exact E.
    + intros e [<- | He]; [|apply Hlow, He].
      destruct (x <? d) eqn:E.
      * apply float_le_no_ltb, Hle.
      * exact (float_le_keeps_above _ _ _ Hle E).
Qed.

(** X6 (what [min] returns).  Python's [min] over a non-empty list of
    float64 values returns an element of the list, and no element of the
    list compares strictly below it; NaN entries included. *)
Theorem py_min_is_minimal (d : float) (ds : list float) :
  In (py_min d ds) (d :: ds) /\
  forall e, In e (d :: ds) -> (e <? py_min d ds) = false.
Proof.
  destruct (py_min_fold ds d) as (Hin & Hle & Hlow).
  split; [exact Hin|].
  intros e [<- | He]; [apply float_le_no_ltb, Hle | apply Hlow, He].
Qed.

Section FrameFacts.

Variable cities : list (float * float).

Lemma stuck_after_accept rnd s k m :
  accepted cities rnd s k = true ->
  (stuck_counter (fst (batch cities rnd (S k + m) (s, false))) <= m)%nat.
Proof.
  intros Hacc. induction m as [|m IH].
  - rewrite Nat.add_0_r, batch_S, attempt_stuck.
    fold (accepted cities rnd s k). rewrite Hacc. lia.
  - replace (S k + S m)%nat with (S (S k + m)) by lia.
    rewrite batch_S, attempt_stuck.
    destruct (_ <? _); lia.
Qed.

Lemma update_stuck_after_accept rnd s k :
  (k < 10)%nat -> accepted cities rnd s k = true ->
  (stuck_counter (update cities rnd s) <= 9 - k)%nat.
Proof.
  intros Hk Hacc.
  destruct (update_fields cities rnd s) as (_ & _ & _ & -> & _).
  replace 10%nat with (S k + (9 - k))%nat by lia.
  apply stuck_after_accept, Hacc.
Qed.

Lemma low_counter_status (s : state) :
  (stuck_counter s < STUCK_THRESHOLD)%nat ->
  get_status s = Improving \/ get_status s = Searching.
Proof.
  intros H. unfold get_status.
  destruct (Nat.eqb_spec (stuck_counter s) 0); [left; reflexivity|].
  destruct (Nat.ltb_spec (stuck_counter s) STUCK_THRESHOLD);
    [right; reflexivity | lia].
Qed.

(** X7 (a frame that improves never reports an optimum).  If any of the
    ten candidates of a frame is accepted, the frame ends with the stuck
    counter at most 9, the badge is improving or searching, and the
    registry is left as it was. *)
Theorem improving_frame_reports_no_optimum
    (rnd : nat -> nat * nat) (s : state) (k : nat) :
  (k < 10)%nat -> accepted cities rnd s k = true ->
  (stuck_counter (update cities rnd s) <= 9 - k)%nat /\
  (get_status (update cities rnd s) = Improving \/
   get_status (update cities rnd s) = Searching) /\
  local_optima_distances (update cities rnd s) = local_optima_distances s.
Proof.
  intros Hk Hacc.
  pose proof (update_stuck_after_accept rnd s k Hk Hacc) as Hs.
  split; [exact Hs|]. split.
  - apply low_counter_status. unfold STUCK_THRESHOLD. lia.
  - apply not_stuck_untouched. unfold STUCK_THRESHOLD. lia.
Qed.

(** X8 (when the badge says improving).  After a frame the badge is
    improving exactly when the tenth, last candidate of the frame was
    accepted: an improvement found earlier in the batch and followed by a
    rejection shows as searching. *)
Theorem improving_iff_last_accepted (rnd : nat -> nat * nat) (s : state) :
  get_status (update cities rnd s) = Improving <->
  accepted cities rnd s 9 = true.
Proof.
  assert (E : stuck_counter (update cities rnd s) =
              if accepted cities rnd s 9 then 0%nat
              else (stuck_counter (fst (batch cities rnd 9 (s, false))) + 1)
                     %nat).
  { destruct (update_fields cities rnd s) as (_ & _ & _ & -> & _).
    rewrite batch_S, attempt_stuck. reflexivity. }
  unfold get_status, STUCK_THRESHOLD. rewrite E.
  destruct (accepted cities rnd s 9).
  - cbn. split; reflexivity.
  - replace (_ + 1 =? 0)%nat with false
      by (symmetry; apply Nat.eqb_neq; lia).
    split; [|discriminate].
    destruct (_ <? 50)%nat; [discriminate|].
    destruct (is_global _); discriminate.
Qed.

(** The batch either has left [best_dist] alone, or has lowered it, cleared
    [is_global] and set [improved]. *)
Lemma batch_new_best rnd k s :
  let b := batch cities rnd k (s, false) in
  best_dist (fst b) = best_dist s \/
  ((best_dist (fst b) <? best_dist s) = true /\
   is_global (fst b) = false /\ snd b = true).
Proof.
  apply (batch_preserves cities
    (fun si => best_dist (fst si) = best_dist s \/
               ((best_dist (fst si) <? best_dist s) = true /\
                is_global (fst si) = false /\ snd si = true))).
  - intros d [s1 imp] H. cbn [fst snd] in H. unfold attempt.
    destruct (_ <? current_dist s1) eqn:E; [|exact H].
    cbn [current current_dist best_dist].
    destruct (_ <? best_dist s1) eqn:E'; cbn [fst snd best_dist is_global].
    + right. split; [|split; reflexivity].
      destruct H as [<- | (H & _)]; [exact E'|].
      exact (FloatOrder.ltb_trans _ _ _ E' H).
    + destruct H as [H | (H & Hg & _)]; [left; exact H|].
      right. repeat split; assumption.
  - left. reflexivity.
Qed.

(** X9 (a new best clears the global flag).  A frame that lowers
    [best_dist] ends with [is_global] false and with the badge improving or
    searching. *)
Theorem new_best_clears_global (rnd : nat -> nat * nat) (s : state) :
  (best_dist (update cities rnd s) <? best_dist s) = true ->
  is_global (update cities rnd s) = false /\
  (get_status (update cities rnd s) = Improving \/
   get_status (update cities rnd s) = Searching).
Proof.
  intros Hlt.
  destruct (update_fields cities rnd s) as (_ & _ & Hb & _).
  rewrite Hb in Hlt.
  destruct (batch_new_best rnd 10 s) as [E | (_ & Hg & Himp)].
  - rewrite E, FloatOrder.ltb_irrefl in Hlt. discriminate.
  - apply improved_iff_accepted in Himp. destruct Himp as (k & Hk & Hacc).
    pose proof (update_stuck_after_accept rnd s k Hk Hacc) as Hs.
    assert (Hlow : (stuck_counter (update cities rnd s)
                      < STUCK_THRESHOLD)%nat)
      by (unfold STUCK_THRESHOLD; lia).
    split; [|apply low_counter_status, Hlow].
    destruct (not_stuck_untouched cities rnd s Hlow) as [-> _]. exact Hg.
Qed.

End FrameFacts.

(** ** Further properties: the registry and the optimum badges *)

Lemma best_so_far_member (x : float) (registry : list float) :
  In x registry -> best_so_far x registry = false.
Proof.
  destruct registry as [|d ds]; [intros []|]. cbn [best_so_far].
  destruct (py_min_fold ds d) as (_ & Hle & Hlow).
  intros [<- | Hx]; [apply float_le_no_ltb, Hle | apply Hlow, Hx].
Qed.

Section OptimaFacts.

Variable cities : list (float * float).

(** A frame all of whose candidates are no shorter than the current tour
    keeps the tour and only counts, logs and classifies. *)
Lemma rejected_frame rnd s :
  (forall i, (i < 10)%nat ->
     (total_distance cities (two_opt_swap (current s) (rnd i))
        <? current_dist s) = false) ->
  update cities rnd s =
  classify
    (record_frame
       (mkState (current s) (current_dist s) (best_dist s)
          (distance_history s) (iteration s) (stuck_counter s + 10)%nat
          (is_global s) (local_optima_distances s))).
Proof.
  intros H. unfold update. rewrite batch_all_rejected by exact H.
  reflexivity.
Qed.

Lemma stuck_status (s : state) :
  (STUCK_THRESHOLD <= stuck_counter s)%nat ->
  get_status s = if is_global s then GlobalOptimum else LocalOptimum.
Proof.
  unfold get_status, STUCK_THRESHOLD. intros H.
  destruct (Nat.eqb_spec (stuck_counter s) 0); [lia|].
  destruct (Nat.ltb_spec (stuck_counter s) 50); [lia|].
  reflexivity.
Qed.

(** X10 (a registered optimum shows as local).  If [current_dist] is
    already an entry of the registry and a frame rejects all ten
    candidates and ends in the stuck regime, then the frame leaves the
    tour and its length as they were, sets [is_global] to false and the
    badge is local optimum: so the optimum that was reported global when
    it was registered is reported local on the next stuck frame. *)
Theorem registered_optimum_reports_local
    (rnd : nat -> nat * nat) (s : state) :
  In (current_dist s) (local_optima_distances s) ->
  (forall i, (i < 10)%nat ->
     (total_distance cities (two_opt_swap (current s) (rnd i))
        <? current_dist s) = false) ->
  (STUCK_THRESHOLD <= stuck_counter s + 10)%nat ->
  current (update cities rnd s) = current s /\
  current_dist (update cities rnd s) = current_dist s /\
  is_global (update cities rnd s) = false /\
  get_status (update cities rnd s) = LocalOptimum.
Proof.
  intros Hin Hrej Hstuck.
  assert (Hg : is_global (update cities rnd s) = false /\
               stuck_counter (update cities rnd s)
               = (stuck_counter s + 10)%nat /\
               current (update cities rnd s) = current s /\
               current_dist (update cities rnd s) = current_dist s).
  { rewrite (rejected_frame rnd s Hrej). unfold classify, record_frame.
    cbn [stuck_counter current_dist local_optima_distances].
    apply Nat.leb_le in Hstuck. rewrite Hstuck.
    cbn [is_global stuck_counter current current_dist].
    rewrite (best_so_far_member _ _ Hin). repeat split. }
  destruct Hg as (Hg & Hs & Hc & Hd).
  repeat split; try assumption.
  rewrite stuck_status by (rewrite Hs; exact Hstuck).
  rewrite Hg. reflexivity.
Qed.


Lemma update_registry_grows rnd s :
  local_optima_distances (update cities rnd s) = local_optima_distances s \/
  local_optima_distances (update cities rnd s) =
  local_optima_distances s ++ [current_dist (update cities rnd s)].
Proof.
  rewrite update_registry.
  destruct (STUCK_THRESHOLD <=? _)%nat; [|left; reflexivity].
  destruct (existsb _ _); [left | right]; reflexivity.
Qed.

(** X12 (the registry only grows).  A frame leaves the registry as it was
    or appends the frame's [current_dist] to it; so after [n] frames the
    registry is the earlier one followed by at most [n] new entries, and a
    restart between frames removes nothing either. *)
Theorem registry_only_grows
    (rnds : nat -> nat -> nat * nat) (n : nat) (s : state) :
  (exists tail,
     local_optima_distances (run cities rnds n s) =
     local_optima_distances s ++ tail /\ (length tail <= n)%nat) /\
  (forall p, local_optima_distances (restart cities p s) =
             local_optima_distances s).
Proof.
  split; [|reflexivity].
  induction n as [|n (tail & IH & Hlen)].
  - exists []. rewrite app_nil_r. split; [reflexivity | cbn; lia].
  - rewrite run_S.
    destruct (update_registry_grows (rnds n) (run cities rnds n s))
      as [-> | ->]; rewrite IH.
    + exists tail. split; [reflexivity | lia].
    + eexists (tail ++ [_]). rewrite app_assoc. split; [reflexivity|].
      rewrite length_app. cbn. lia.
Qed.

(** X13 (every registered optimum is the length of a tour).  In every
    state a run can reach, each entry of the registry is [total_distance]
    of some permutation of the cities. *)
Theorem registry_entries_are_tour_lengths (s : state) :
  reachable cities s ->
  forall d, In d (local_optima_distances s) ->
  exists tour, Permutation tour (seq 0 (N cities)) /\
               d = total_distance cities tour.
Proof.
  intros H.
  assert (Inv : Permutation (current s) (seq 0 (N cities)) /\
                current_dist s = total_distance cities (current s) /\
                forall d, In d (local_optima_distances s) ->
                  exists tour, Permutation tour (seq 0 (N cities)) /\
                               d = total_distance cities tour).
  { induction H as [p Hp | rnd s _ (IHp & IHc & IHr) | p s Hp _ (_ & _ & IHr)].
    - repeat split; [exact Hp | intros d []].
    - assert (Hp' : Permutation (current (update cities rnd s))
                      (seq 0 (N cities)))
        by (rewrite update_current_perm; exact IHp).
      pose proof (update_coherent cities rnd s IHc) as Hc'.
      repeat split; try assumption.
      intros d Hd.
      destruct (update_registry_grows rnd s) as [E | E]; rewrite E in Hd.
      + apply IHr, Hd.
      + apply in_app_or in Hd. destruct Hd as [Hd | [<- | []]].
        * apply IHr, Hd.
        * exists (current (update cities rnd s)). split; assumption.
    - repeat split; [exact Hp | exact IHr]. }
  apply Inv.
Qed.

End OptimaFacts.

(** ** Further properties: what a frame draws *)

Lemma py_max_head (d : float) (ds : list float) :
  (forall e, In e ds -> float_le e d) -> py_max d ds = d.
Proof.
  unfold py_max. induction ds as [|x ds IH]; intros H; [reflexivity|].
  cbn [fold_left].
  rewrite (float_le_no_ltb x d) by (apply H; left; reflexivity).
  apply IH. intros e He. apply H. right. exact He.
Qed.

Lemma py_min_last (ds : list float) (d : float) :
  non_increasing (d :: ds) -> py_min d ds = last (d :: ds) 0.
Proof.
  unfold py_min. revert d. induction ds as [|x ds IH]; intros d H.
  - reflexivity.
  - cbn [fold_left].
    assert (Hx : float_le x d) by (apply (H 0%nat); reflexivity).
    assert (E : (if x <? d then x else d) = x).
    { destruct Hx as [-> | Hx].
      - rewrite FloatOrder.ltb_irrefl. reflexivity.
      - rewrite Hx. reflexivity. }
    rewrite E, IH by (apply (non_increasing_tail d), H).
    reflexivity.
Qed.

Lemma take_rows_in_range (cities : list (float * float)) (route : list nat) :
  (forall c, In c route -> (c < N cities)%nat) ->
  take_rows cities route = Some (map (city cities) route).
Proof.
  induction route as [|c rest IH]; intros H; [reflexivity|].
  cbn [take_rows map].
  rewrite (nth_error_nth' cities (0, 0)) by (apply H; left; reflexivity).
  rewrite IH by (intros k Hk; apply H; right; exact Hk).
  reflexivity.
Qed.

Section DisplayFacts.

Variable cities : list (float * float).

Lemma reachable_current_perm (s : state) :
  reachable cities s -> Permutation (current s) (seq 0 (N cities)).
Proof.
  intros H. induction H as [p Hp | rnd s _ IH | p s Hp _ _].
  - exact Hp.
  - rewrite update_current_perm. exact IH.
  - exact Hp.
Qed.

(** X14 (the route line can always be drawn).  In every state a run can
    reach over a non-empty city table, closing the tour and looking up the
    rows raises no [IndexError]: the line has [N + 1] points, the
    coordinates of the cities in tour order followed by the first city
    again. *)
Theorem route_line_is_closed_tour (s : state) :
  reachable cities s -> (0 < N cities)%nat ->
  exists c rest,
    current s = c :: rest /\
    route_line cities s =
    Some (map (fun k => fst (city cities k)) (current s ++ [c]),
          map (fun k => snd (city cities k)) (current s ++ [c])) /\
    length (current s ++ [c]) = (N cities + 1)%nat.
Proof.
  intros H HN. pose proof (reachable_current_perm s H) as Hp.
  pose proof (Permutation_length Hp) as Hlen. rewrite length_seq in Hlen.
  destruct (current s) as [|c rest] eqn:Ec; [cbn in Hlen; lia|].
  exists c, rest. split; [reflexivity|]. split.
  - unfold route_line, closed_route. rewrite Ec.
    rewrite take_rows_in_range.
    + rewrite !map_map. reflexivity.
    + intros k Hk.
      assert (Hk' : In k (c :: rest)).
      { apply in_app_or in Hk. destruct Hk as [Hk | [<- | []]];
          [exact Hk | left; reflexivity]. }
      apply (Permutation_in k Hp), in_seq in Hk'. lia.
  - rewrite length_app, Hlen. reflexivity.
Qed.

(** X16 (the axes of the distance plot).  In every state a run can reach,
    the x axis ends at [max(300, iteration + 1)], and computing the y
    limits raises no [ValueError]: the lower limit is [current_dist * 0.95]
    and the upper limit is the first logged distance times [1.05]. *)
Theorem distance_plot_limits (s : state) :
  reachable cities s ->
  dist_xlim s = Nat.max 300 (iteration s + 1) /\
  dist_ylim s =
  Some (current_dist s * 0.95, hd 0 (distance_history s) * 1.05).
Proof.
  intros H. destruct (reachable_history cities s H) as (Hl & Hc & Hn).
  unfold dist_xlim, dist_ylim. rewrite Hl. split; [reflexivity|].
  destruct (distance_history s) as [|d ds]; [cbn in Hl; lia|].
  rewrite (py_min_last ds d Hn), Hc.
  rewrite (py_max_head d ds (non_increasing_below_head d ds Hn)).
  reflexivity.
Qed.

End DisplayFacts.

(** X15 (the line colour is always found).  The key [get_status()] returns
    is always one of the four keys of the dict [colors], so the lookup
    never raises [KeyError]: the route is royal blue while improving, dark
    orange while searching, crimson at a local optimum and medium sea
    green at a global one. *)
Theorem line_color_total (s : state) :
  fst (fst (fst (status_badge s))) = status_key (get_status s) /\
  line_color s =
  Some (match get_status s with
        | Improving => "royalblue"
        | Searching => "darkorange"
        | LocalOptimum => "crimson"
        | GlobalOptimum => "mediumseagreen"
        end%string).
Proof.
  unfold line_color, status_badge, get_status.
  destruct (stuck_counter s =? 0)%nat; [split; reflexivity|].
  destruct (stuck_counter s <? STUCK_THRESHOLD)%nat; [split; reflexivity|].
  destruct (is_global s); split; reflexivity.
Qed.

(** ** Further properties: the distance between two cities *)




(** ** The further properties at concrete inputs *)

(** The frame on the unit square that gets stuck at 4.0 after the crossing
    length has been registered. *)
Lemma two_optima_next_reachable :
  reachable unit_square
    (update unit_square (fun _ => (1, 2)%nat) two_optima_state).
Proof. apply reach_update, two_optima_state_reachable. Qed.

Lemma two_optima_next_registry :
  local_optima_distances
    (update unit_square (fun _ => (1, 2)%nat) two_optima_state) =
  [total_distance unit_square [0; 2; 1; 3]%nat; 4].
Proof. vm_compute. reflexivity. Qed.

Lemma current_dist_is_tour_length_witness :
  reachable unit_square two_optima_state /\
  current_dist two_optima_state =
  total_distance unit_square (current two_optima_state).
Proof.
  split; [exact two_optima_state_reachable|].
  exact (current_dist_is_tour_length unit_square two_optima_state
           two_optima_state_reachable).
Defined.

Lemma history_invariant_witness :
  reachable unit_square two_optima_state /\
  length (distance_history two_optima_state) =
  (iteration two_optima_state + 1)%nat.
Proof.
  split; [exact two_optima_state_reachable|].
  exact (proj1 (history_invariant unit_square two_optima_state
                  two_optima_state_reachable)).
Defined.

Lemma improving_frame_reports_no_optimum_witness :
  ((0 < 10)%nat /\
   accepted unit_square (fun _ => (1, 2)%nat)
     (initial unit_square [0; 2; 1; 3]%nat) 0 = true) /\
  (stuck_counter
     (update unit_square (fun _ => (1, 2)%nat)
        (initial unit_square [0; 2; 1; 3]%nat)) <= 9 - 0)%nat.
Proof.
  assert (Hk : (0 < 10)%nat) by lia.
  assert (Hacc : accepted unit_square (fun _ => (1, 2)%nat)
                   (initial unit_square [0; 2; 1; 3]%nat) 0 = true)
    by (vm_compute; reflexivity).
  split; [split; assumption|].
  exact (proj1 (improving_frame_reports_no_optimum unit_square
                  (fun _ => (1, 2)%nat)
                  (initial unit_square [0; 2; 1; 3]%nat) 0 Hk Hacc)).
Defined.

Lemma new_best_clears_global_witness :
  (best_dist (update unit_square (fun _ => (1, 2)%nat)
                (initial unit_square [0; 2; 1; 3]%nat))
   <? best_dist (initial unit_square [0; 2; 1; 3]%nat)) = true /\
  is_global (update unit_square (fun _ => (1, 2)%nat)
               (initial unit_square [0; 2; 1; 3]%nat)) = false.
Proof.
  assert (H : (best_dist (update unit_square (fun _ => (1, 2)%nat)
                            (initial unit_square [0; 2; 1; 3]%nat))
               <? best_dist (initial unit_square [0; 2; 1; 3]%nat)) = true)
    by (vm_compute; reflexivity).
  split; [exact H|].
  exact (proj1 (new_best_clears_global unit_square (fun _ => (1, 2)%nat)
                  (initial unit_square [0; 2; 1; 3]%nat) H)).
Defined.

(** The state after five frames at the optimum of the unit square. *)
Lemma registered_optimum_reports_local_witness :
  get_status
    (update unit_square (fun _ => (0, 1)%nat)
       (mkState [0; 1; 2; 3]%nat 4 4 [4; 4; 4; 4; 4; 4] 5 50 true [4]))
  = LocalOptimum.
Proof.
  refine (proj2 (proj2 (proj2
    (registered_optimum_reports_local unit_square (fun _ => (0, 1)%nat)
       (mkState [0; 1; 2; 3]%nat 4 4 [4; 4; 4; 4; 4; 4] 5 50 true [4])
       _ _ _)))).
  - left. reflexivity.
  - intros i _. vm_compute. reflexivity.
  - vm_compute. lia.
Defined.


Lemma registry_entries_are_tour_lengths_witness :
  exists tour,
    Permutation tour (seq 0 (N unit_square)) /\
    4 = total_distance unit_square tour.
Proof.
  refine (registry_entries_are_tour_lengths unit_square _
            two_optima_next_reachable 4 _).
  rewrite two_optima_next_registry. right. left. reflexivity.
Defined.

Lemma route_line_is_closed_tour_witness :
  (reachable unit_square two_optima_state /\ (0 < N unit_square)%nat) /\
  exists c rest,
    current two_optima_state = c :: rest /\
    route_line unit_square two_optima_state =
    Some (map (fun k => fst (city unit_square k))
            (current two_optima_state ++ [c]),
          map (fun k => snd (city unit_square k))
            (current two_optima_state ++ [c])) /\
    length (current two_optima_state ++ [c]) = (N unit_square + 1)%nat.
Proof.
  assert (HN : (0 < N unit_square)%nat) by (cbn; lia).
  split; [split; [exact two_optima_state_reachable | exact HN]|].
  exact (route_line_is_closed_tour unit_square two_optima_state
           two_optima_state_reachable HN).
Defined.

Lemma distance_plot_limits_witness :
  reachable unit_square two_optima_state /\
  dist_ylim two_optima_state =
  Some (current_dist two_optima_state * 0.95,
        hd 0 (distance_history two_optima_state) * 1.05).
Proof.
  split; [exact two_optima_state_reachable|].
  exact (proj2 (distance_plot_limits unit_square two_optima_state
                  two_optima_state_reachable)).
Defined.
